(** * Citation and text normalisation of the Austrian Law MCP server

    A shallow embedding of the parts of the TypeScript sources that the
    citation parser ([parser.ts]), formatter ([formatter.ts]), validator
    ([validator.ts]), content cleaner ([content-cleaner.ts]) and search-query
    builder ([fts-query.ts]) consist of.

    JavaScript strings are sequences of UTF-16 code units; they are modelled
    as [list Z].  The regular expressions of the sources are translated into
    the syntax [re] below and run by [m], a backtracking matcher written after
    the ECMAScript pattern semantics (continuation passing, greedy and lazy
    quantifiers, captures, [^], [$], [\b]). *)

From Stdlib Require Import ZArith List String Ascii Bool Lia DecimalString.
Import ListNotations.

Open Scope bool_scope.

(* ------------------------------------------------------------------ *)
(** ** JavaScript strings *)

Module JsString.

Definition jsstr := list Z.

Fixpoint bytes_of (s : string) : list Z :=
  match s with
  | EmptyString => []
  | String a t => Z.of_nat (nat_of_ascii a) :: bytes_of t
  end.

(** Decoding of UTF-8 source literals into UTF-16 code units, so that
    literals of the sources (which contain [§], [ä], [–], ...) can be
    written as they are. *)
Fixpoint utf8_units (l : list Z) : list Z :=
  match l with
  | [] => []
  | b1 :: t1 =>
    if (b1 <? 128)%Z then b1 :: utf8_units t1 else
    match t1 with
    | [] => []
    | b2 :: t2 =>
      if (b1 <? 224)%Z then
        Z.lor (Z.shiftl (Z.land b1 31) 6) (Z.land b2 63) :: utf8_units t2
      else
      match t2 with
      | [] => []
      | b3 :: t3 =>
        if (b1 <? 240)%Z then
          Z.lor (Z.shiftl (Z.land b1 15) 12)
                (Z.lor (Z.shiftl (Z.land b2 63) 6) (Z.land b3 63)) :: utf8_units t3
        else
        match t3 with
        | [] => []
        | b4 :: t4 =>
          let cp := Z.lor (Z.shiftl (Z.land b1 7) 18)
                     (Z.lor (Z.shiftl (Z.land b2 63) 12)
                       (Z.lor (Z.shiftl (Z.land b3 63) 6) (Z.land b4 63))) in
          (55296 + Z.shiftr (cp - 65536) 10)%Z
            :: (56320 + Z.land (cp - 65536) 1023)%Z :: utf8_units t4
        end
      end
    end
  end.

Definition u (s : string) : jsstr := utf8_units (bytes_of s).

(** ECMAScript [LineTerminator]. *)
Definition is_line_terminator (c : Z) : bool :=
  (c =? 10)%Z || (c =? 13)%Z || (c =? 8232)%Z || (c =? 8233)%Z.

(** ECMAScript [WhiteSpace] and [LineTerminator]: the set of [\s] and of
    [String.prototype.trim]. *)
Definition is_js_space (c : Z) : bool :=
  (c =? 9)%Z || (c =? 11)%Z || (c =? 12)%Z || (c =? 32)%Z || (c =? 160)%Z
  || (c =? 5760)%Z || ((8192 <=? c)%Z && (c <=? 8202)%Z)
  || (c =? 8239)%Z || (c =? 8287)%Z || (c =? 12288)%Z || (c =? 65279)%Z
  || is_line_terminator c.

Definition is_digit (c : Z) : bool := (48 <=? c)%Z && (c <=? 57)%Z.
Definition is_ascii_upper (c : Z) : bool := (65 <=? c)%Z && (c <=? 90)%Z.
Definition is_ascii_lower (c : Z) : bool := (97 <=? c)%Z && (c <=? 122)%Z.

(** [\w] without the [u] flag. *)
Definition is_word_char (c : Z) : bool :=
  is_ascii_upper c || is_ascii_lower c || is_digit c || (c =? 95)%Z.

Fixpoint trim_start (s : jsstr) : jsstr :=
  match s with
  | [] => []
  | c :: t => if is_js_space c then trim_start t else s
  end.

Definition trim_end (s : jsstr) : jsstr := rev (trim_start (rev s)).

(** [String.prototype.trim]. *)
Definition trim (s : jsstr) : jsstr := trim_end (trim_start s).

(** [String.prototype.split] with a one-character string separator. *)
Fixpoint split_on (sep : Z) (s : jsstr) : list jsstr :=
  match s with
  | [] => [[]]
  | c :: t =>
    if (c =? sep)%Z then [] :: split_on sep t
    else match split_on sep t with
         | [] => [[c]]
         | w :: ws => (c :: w) :: ws
         end
  end.

(** [Array.prototype.join]. *)
Fixpoint join (sep : jsstr) (l : list jsstr) : jsstr :=
  match l with
  | [] => []
  | [x] => x
  | x :: t => x ++ sep ++ join sep t
  end.

(** [String.prototype.slice(a, b)] for [0 <= a <= b]. *)
Definition substring (s : jsstr) (a b : nat) : jsstr := firstn (b - a) (skipn a s).

(** JavaScript truthiness of a string. *)
Definition truthy (s : jsstr) : bool := match s with [] => false | _ => true end.

End JsString.

Import JsString.

(* ------------------------------------------------------------------ *)
(** ** Regular expressions *)

Module Regex.

(** Character case canonicalisation of the non-[u] ignore-case mode
    (ECMAScript [Canonicalize]): upper case when the upper-case form is a
    single unit and does not map a non-ASCII unit to ASCII.  The mapping is
    written out for Latin-1; the patterns below compare characters only with
    ASCII and Latin-1 literals, for which no unit above U+00FF canonicalises
    to the same value. *)
Definition canonicalize (c : Z) : Z :=
  if is_ascii_lower c then (c - 32)%Z
  else if (c =? 181)%Z then 924%Z
  else if ((224 <=? c)%Z && (c <=? 254)%Z && negb (c =? 247)%Z) then (c - 32)%Z
  else if (c =? 255)%Z then 376%Z
  else c.

Inductive re : Type :=
| RChar (p : Z -> bool)      (** one unit in the class [p] *)
| RSeq (r1 r2 : re)
| RAlt (r1 r2 : re)
| REmpty
| RStar (greedy : bool) (r : re)   (** [r*] (greedy) or [r*?] (lazy) *)
| RGroup (n : nat) (r : re)   (** capture group [n] *)
| RBol                         (** [^] without the [m] flag *)
| REol                         (** [$] without the [m] flag *)
| RWordB.                      (** [\b] *)

(** Matcher state: the position and the captures recorded so far (most
    recent first). *)
Definition mstate : Type := (nat * list (nat * (nat * nat)))%type.

Definition cont : Type := mstate -> option mstate.

Definition is_word_at (s : jsstr) (i : nat) : bool :=
  match nth_error s i with Some c => is_word_char c | None => false end.

(** [IsWordChar(e-1) <> IsWordChar(e)]. *)
Definition word_boundary (s : jsstr) (i : nat) : bool :=
  let a := match i with O => false | S j => is_word_at s j end in
  let b := is_word_at s i in
  negb (Bool.eqb a b).

(** One star: [body] is the matcher of the iterated pattern.  An
    iteration that does not advance fails, as in [RepeatMatcher] once the
    minimum count is reached; [greedy] tries one more iteration before the
    continuation, a lazy star the other way round. *)
Fixpoint star_loop (body : cont -> mstate -> option mstate) (greedy : bool) (k : cont)
    (fuel : nat) (st0 : mstate) {struct fuel} : option mstate :=
  match fuel with
  | O => None
  | S f =>
    let iter := fun (_ : unit) =>
      body (fun st1 => if fst st0 <? fst st1 then star_loop body greedy k f st1 else None) st0 in
    if greedy then
      match iter tt with
      | Some x => Some x
      | None => k st0
      end
    else
      match k st0 with
      | Some x => Some x
      | None => iter tt
      end
  end.

(** The matcher; the fuel of a star is the number of units left plus one,
    which each iteration decreases. *)
Fixpoint m (s : jsstr) (r : re) (k : cont) (st : mstate) {struct r} : option mstate :=
  match r with
  | RChar p =>
    match nth_error s (fst st) with
    | Some c => if p c then k (S (fst st), snd st) else None
    | None => None
    end
  | RSeq r1 r2 => m s r1 (fun st1 => m s r2 k st1) st
  | RAlt r1 r2 =>
    match m s r1 k st with
    | Some x => Some x
    | None => m s r2 k st
    end
  | REmpty => k st
  | RStar g r1 => star_loop (m s r1) g k (S (List.length s - fst st)) st
  | RGroup n r1 => m s r1 (fun st1 => k (fst st1, (n, (fst st, fst st1)) :: snd st1)) st
  | RBol => if Nat.eqb (fst st) 0 then k st else None
  | REol => if Nat.eqb (fst st) (List.length s) then k st else None
  | RWordB => if word_boundary s (fst st) then k st else None
  end.

(** Matching at one start index, and the leftmost search of
    [RegExpBuiltinExec] for a regular expression without [g] or [y]. *)
Definition match_at (s : jsstr) (r : re) (i : nat) : option mstate :=
  m s r (fun st => Some st) (i, []).

Fixpoint search_from (s : jsstr) (r : re) (i : nat) (fuel : nat) : option (nat * mstate) :=
  match fuel with
  | O => None
  | S f =>
    match match_at s r i with
    | Some st => Some (i, st)
    | None => search_from s r (S i) f
    end
  end.

Definition search (s : jsstr) (r : re) : option (nat * mstate) :=
  search_from s r 0 (S (List.length s)).

(** [RegExp.prototype.test]. *)
Definition test (r : re) (s : jsstr) : bool :=
  match search s r with Some _ => true | None => false end.

Fixpoint lookup_cap (n : nat) (caps : list (nat * (nat * nat))) : option (nat * nat) :=
  match caps with
  | [] => None
  | (k, v) :: t => if Nat.eqb k n then Some v else lookup_cap n t
  end.

(** Capture [n] of a match, [undefined] being [None]. *)
Definition group (s : jsstr) (st : mstate) (n : nat) : option jsstr :=
  match lookup_cap n (snd st) with
  | Some (a, b) => Some (substring s a b)
  | None => None
  end.

(** [String.prototype.replace] with a non-global pattern and a plain
    replacement string. *)
Definition replace_first (r : re) (s repl : jsstr) : jsstr :=
  match search s r with
  | Some (i, (e, _)) => firstn i s ++ repl ++ skipn e s
  | None => s
  end.

(** [String.prototype.replace] with a global pattern: every match from
    the index after the previous one; an empty match keeps the next unit. *)
Fixpoint replace_all_from (r : re) (s repl : jsstr) (i : nat) (fuel : nat) : jsstr :=
  match fuel with
  | O => skipn i s
  | S f =>
    match search_from s r i (S (List.length s - i)) with
    | None => skipn i s
    | Some (p, (e, _)) =>
      substring s i p ++ repl ++
      (if Nat.eqb e p then
         match nth_error s p with
         | Some c => c :: replace_all_from r s repl (S p) f
         | None => []
         end
       else replace_all_from r s repl e f)
    end
  end.

Definition replace_all (r : re) (s repl : jsstr) : jsstr :=
  replace_all_from r s repl 0 (S (List.length s)).

(** [String.prototype.split] with a regular-expression separator without
    captures ([SplitMatcher] with the sticky flag). *)
Fixpoint split_loop (r : re) (s : jsstr) (p q : nat) (fuel : nat) : list jsstr :=
  match fuel with
  | O => [substring s p (List.length s)]
  | S f =>
    if q <? List.length s then
      match match_at s r q with
      | None => split_loop r s p (S q) f
      | Some (e, _) =>
        if Nat.eqb e p then split_loop r s p (S q) f
        else substring s p q :: split_loop r s e e f
      end
    else [substring s p (List.length s)]
  end.

Definition split_re (r : re) (s : jsstr) : list jsstr :=
  match s with
  | [] => match match_at s r 0 with Some _ => [] | None => [[]] end
  | _ => split_loop r s 0 0 (S (2 * List.length s))
  end.

(** Derived forms. *)
Definition chr (c : Z) : re := RChar (fun x => (x =? c)%Z).
Definition chr_i (c : Z) : re := RChar (fun x => (canonicalize x =? canonicalize c)%Z).
Fixpoint seq_of (l : list re) : re :=
  match l with
  | [] => REmpty
  | [r] => r
  | r :: t => RSeq r (seq_of t)
  end.
Definition lit (w : jsstr) : re := seq_of (map chr w).
Definition lit_i (w : jsstr) : re := seq_of (map chr_i w).
Definition alt_of (l : list re) : re := fold_right RAlt (RChar (fun _ => false)) l.
Definition opt (r : re) : re := RAlt r REmpty.
Definition star (r : re) : re := RStar true r.
Definition plus (r : re) : re := RSeq r (RStar true r).
Definition lazy_plus (r : re) : re := RSeq r (RStar false r).
Fixpoint rep (n : nat) (r : re) : re :=
  match n with O => REmpty | S k => RSeq r (rep k r) end.
(** [r{n,}] *)
Definition rep_min (n : nat) (r : re) : re := RSeq (rep n r) (star r).
(** Greedy optional tail of [r{n,n+k}]. *)
Fixpoint opt_chain (k : nat) (r : re) : re :=
  match k with O => REmpty | S j => opt (RSeq r (opt_chain j r)) end.
(** [r{a,b}] *)
Definition rep_range (a b : nat) (r : re) : re := RSeq (rep a r) (opt_chain (b - a) r).

(** Character classes. *)
Definition dot : re := RChar (fun c => negb (is_line_terminator c)).
Definition ws : re := RChar is_js_space.
Definition digit : re := RChar is_digit.
Definition wordc : re := RChar is_word_char.
Definition in_list (l : list Z) (c : Z) : bool := existsb (Z.eqb c) l.

End Regex.

Import Regex.

(* ------------------------------------------------------------------ *)
(** ** The citation parser ([src/citation/parser.ts]) *)

Module Parser.

Inductive citation_type := Statute | StatutoryInstrument | Unknown.

Record ParsedCitation := mkParsed {
  valid : bool;
  type : citation_type;
  title : option jsstr;
  year : option Z;
  section : option jsstr;
  subsection : option jsstr;
  paragraph : option jsstr;
  error : option jsstr
}.

Fixpoint range (a : Z) (n : nat) : list Z :=
  match n with O => [] | S k => a :: range (a + 1)%Z k end.

(** A character class under the [i] flag: a unit matches when it
    canonicalises like one of the members. *)
Definition class_i (members : list Z) : re :=
  RChar (fun c => existsb (fun x => (canonicalize x =? canonicalize c)%Z) members).

Definition digit_i : re := class_i (range 48 10).
Definition az_i : re := class_i (range 97 26).

(** [(?:§|Paragraph|Paragraf)] under [i]. *)
Definition marker_i : re := alt_of [lit_i (u "§"); lit_i (u "Paragraph"); lit_i (u "Paragraf")].

(** [[\d]+[a-z]?(?:\(\d+\))*(?:\([a-z]\))?] under [i]. *)
Definition SEC : re :=
  seq_of [plus digit_i; opt az_i;
          star (seq_of [chr_i 40; plus digit_i; chr_i 41]);
          opt (seq_of [chr_i 40; az_i; chr_i 41])].

(** [/^(?:§|Paragraph|Paragraf)\s*(SEC)\s*,?\s+(.+)$/i] *)
Definition SECTION_THEN_TITLE : re :=
  seq_of [RBol; marker_i; star ws; RGroup 1 SEC; star ws; opt (chr_i 44); plus ws;
          RGroup 2 (plus dot); REol].

(** [/^(.+?)\s+(?:§|Paragraph|Paragraf)\s*(SEC)$/i] *)
Definition TITLE_THEN_SECTION : re :=
  seq_of [RBol; RGroup 1 (lazy_plus dot); plus ws; marker_i; star ws; RGroup 2 SEC; REol].

(** [/^para([\d]+[a-z]?)\s*,?\s+(.+)$/i] *)
Definition MACHINE_REF_THEN_TITLE : re :=
  seq_of [RBol; lit_i (u "para"); RGroup 1 (RSeq (plus digit_i) (opt az_i)); star ws;
          opt (chr_i 44); plus ws; RGroup 2 (plus dot); REol].

(** [/^(?:Section|s\.?)\s+(SEC)\s*,?\s+(.+?)(?:\s+(\d{4}))?$/i] *)
Definition LEGACY_ENGLISH : re :=
  seq_of [RBol; RAlt (lit_i (u "Section")) (RSeq (chr_i 115) (opt (chr_i 46)));
          plus ws; RGroup 1 SEC; star ws; opt (chr_i 44); plus ws;
          RGroup 2 (lazy_plus dot);
          opt (RSeq (plus ws) (RGroup 3 (rep 4 digit_i)));
          REol].

(** [/^(\d+[a-z]?)(?:\((\d+)\))?(?:\(([a-z])\))?$/i] *)
Definition SECTION_REF : re :=
  seq_of [RBol; RGroup 1 (RSeq (plus digit_i) (opt az_i));
          opt (seq_of [chr_i 40; RGroup 2 (plus digit_i); chr_i 41]);
          opt (seq_of [chr_i 40; RGroup 3 az_i; chr_i 41]);
          REol].

(** [/^para[\d]+[a-z]?$/i] *)
Definition BARE_MACHINE_REF : re :=
  seq_of [RBol; lit_i (u "para"); plus digit_i; opt az_i; REol].

(** [/^(?:§|Paragraph|Paragraf)\s*(SEC)$/i] *)
Definition BARE_SECTION : re :=
  seq_of [RBol; marker_i; star ws; RGroup 1 SEC; REol].

(** [/\s+(\d{4})$/] *)
Definition YEAR_SUFFIX : re :=
  seq_of [plus ws; RGroup 1 (rep 4 digit); REol].

(** [/^para/i] *)
Definition PARA_PREFIX : re := RSeq RBol (lit_i (u "para")).

(** [Number.parseInt(s, 10)], applied to strings of ASCII digits. *)
Definition parseInt10 (s : jsstr) : Z :=
  fold_left (fun acc c => (acc * 10 + (c - 48))%Z) s 0%Z.

(** [splitYear] *)
Definition splitYear (title : jsstr) : jsstr * option Z :=
  let trimmed := trim title in
  match search trimmed YEAR_SUFFIX with
  | Some (i, st) =>
    match group trimmed st 1 with
    | Some g =>
      if truthy g then
        (trim (firstn (List.length trimmed - (fst st - i)) trimmed), Some (parseInt10 g))
      else (trimmed, None)
    | None => (trimmed, None)
    end
  | None => (trimmed, None)
  end.

(** [parseSection] *)
Definition parseSection (sectionStr : jsstr) (title : option jsstr) (year : option Z)
    (type : citation_type) : ParsedCitation :=
  let normalized := trim (replace_first PARA_PREFIX sectionStr []) in
  let sectionMatch := search normalized SECTION_REF in
  {| valid := true;
     type := type;
     title := option_map trim title;
     year := year;
     section :=
       Some (match sectionMatch with
             | Some (_, st) => match group normalized st 1 with
                               | Some g => g
                               | None => normalized
                               end
             | None => normalized
             end);
     subsection := match sectionMatch with Some (_, st) => group normalized st 2 | None => None end;
     paragraph := match sectionMatch with Some (_, st) => group normalized st 3 | None => None end;
     error := None |}.

Definition invalid (e : jsstr) : ParsedCitation :=
  {| valid := false; type := Unknown; title := None; year := None; section := None;
     subsection := None; paragraph := None; error := Some e |}.

(** [match?.[1] && match[2]]: both captures present and non-empty. *)
Definition two_groups (s : jsstr) (r : re) : option (jsstr * jsstr) :=
  match search s r with
  | Some (_, st) =>
    match group s st 1, group s st 2 with
    | Some g1, Some g2 => if truthy g1 && truthy g2 then Some (g1, g2) else None
    | _, _ => None
    end
  | None => None
  end.

(** The legacy English form of [parseCitation]. *)
Definition legacy_form (trimmed : jsstr) : option ParsedCitation :=
  match search trimmed LEGACY_ENGLISH with
  | Some (_, st) =>
    match group trimmed st 1, group trimmed st 2 with
    | Some g1, Some g2 =>
      if truthy g1 && truthy g2 then
        let year := match group trimmed st 3 with
                    | Some g3 => if truthy g3 then Some (parseInt10 g3) else None
                    | None => None
                    end in
        Some (parseSection g1 (Some g2) year Statute)
      else None
    | _, _ => None
    end
  | None => None
  end.

(** [parseCitation] *)
Definition parseCitation (citation : jsstr) : ParsedCitation :=
  let trimmed := trim citation in
  if negb (truthy trimmed) then invalid (u "Empty citation") else
  match two_groups trimmed SECTION_THEN_TITLE with
  | Some (sec, t) =>
    let '(cleanTitle, year) := splitYear t in parseSection sec (Some cleanTitle) year Statute
  | None =>
  match two_groups trimmed TITLE_THEN_SECTION with
  | Some (t, sec) =>
    let '(cleanTitle, year) := splitYear t in parseSection sec (Some cleanTitle) year Statute
  | None =>
  match two_groups trimmed MACHINE_REF_THEN_TITLE with
  | Some (sec, t) =>
    let '(cleanTitle, year) := splitYear t in parseSection sec (Some cleanTitle) year Statute
  | None =>
  match legacy_form trimmed with
  | Some p => p
  | None =>
  if test BARE_MACHINE_REF trimmed then parseSection (skipn 4 trimmed) None None Statute else
  match search trimmed BARE_SECTION with
  | Some (_, st) =>
    (* [match[1]] is defined whenever the pattern matches: the group is not optional *)
    parseSection (match group trimmed st 1 with Some g => g | None => [] end) None None Statute
  | None =>
    invalid (u "Could not parse Austrian citation: " ++ [34%Z] ++ trimmed ++ [34%Z])
  end
  end
  end
  end
  end.

End Parser.

(* ------------------------------------------------------------------ *)
(** ** The citation formatter ([src/citation/formatter.ts]) *)

Module Formatter.

Import Parser.

Inductive CitationFormat := Full | Short | Pinpoint.

(** [String(n)] for an integer. *)
Definition number_to_string (n : Z) : jsstr := u (NilEmpty.string_of_int (Z.to_int n)).

Definition opt_truthy (o : option jsstr) : bool :=
  match o with Some s => truthy s | None => false end.

(** [buildPinpoint] *)
Definition buildPinpoint (parsed : ParsedCitation) : jsstr :=
  let ref := match section parsed with Some s => s | None => [] end in
  let ref := match subsection parsed with
             | Some sub => if truthy sub then ref ++ u "(" ++ sub ++ u ")" else ref
             | None => ref
             end in
  match paragraph parsed with
  | Some par => if truthy par then ref ++ u "(" ++ par ++ u ")" else ref
  | None => ref
  end.

(** [[parsed.title, parsed.year ? String(parsed.year) : undefined]
      .filter(Boolean).join(' ')] *)
Definition titleAndYear (parsed : ParsedCitation) : jsstr :=
  let yr := match year parsed with
            | Some y => if (y =? 0)%Z then None else Some (number_to_string y)
            | None => None
            end in
  join (u " ") (filter truthy (match title parsed with Some t => [t] | None => [] end
                               ++ match yr with Some y => [y] | None => [] end)).

(** [formatCitation] *)
Definition formatCitation (parsed : ParsedCitation) (format : CitationFormat) : jsstr :=
  if negb (valid parsed) || negb (opt_truthy (section parsed)) then [] else
  let pinpoint := buildPinpoint parsed in
  let ty := titleAndYear parsed in
  match format with
  | Full => if truthy ty then u "§ " ++ pinpoint ++ u ", " ++ ty else u "§ " ++ pinpoint
  | Short =>
    match title parsed with
    | Some t => if truthy t then u "§ " ++ pinpoint ++ u " " ++ t else u "§ " ++ pinpoint
    | None => u "§ " ++ pinpoint
    end
  | Pinpoint => u "§ " ++ pinpoint
  end.

End Formatter.

(* ------------------------------------------------------------------ *)
(** ** The content cleaner ([src/utils/content-cleaner.ts]) *)

Module Cleaner.

Definition cls (l : list Z) : re := RChar (in_list l).
Definition upper_uml : list Z := Parser.range 65 26 ++ [196; 214; 220]%Z.
Definition lower_uml : list Z := Parser.range 97 26 ++ [228; 246; 252]%Z.

(** [METADATA_LINE_PATTERNS] *)
Definition META_BGBL : re :=
  seq_of [RBol;
          alt_of [seq_of [lit (u "BGBl"); opt (chr 46); star ws;
                          RSeq (opt (RSeq (plus (cls (u "IVX"))) (plus ws))) (lit (u "Nr."));
                          star ws; plus dot];
                  seq_of [lit (u "JGS"); plus ws; lit (u "Nr."); star ws; plus dot];
                  seq_of [lit (u "StGBl"); opt (chr 46); star ws; opt (lit (u "Nr."));
                          star ws; plus dot]];
          REol].
Definition META_DOCTYPE : re :=
  seq_of [RBol;
          alt_of [lit (u "BG"); lit (u "BVG"); lit (u "V"); lit (u "StF"); lit (u "GZ");
                  seq_of [lit (u "Vertrag"); plus ws; lit (u "–"); plus ws; plus dot]];
          REol].
Definition META_SECTION : re :=
  seq_of [RBol;
          alt_of [seq_of [lit (u "§"); star ws; plus digit; star wordc];
                  seq_of [lit (u "Art"); opt (chr 46); star ws; plus digit; star wordc];
                  seq_of [lit (u "Anl"); opt (chr 46); star ws; plus digit; star wordc]];
          REol].
Definition META_INDEX : re :=
  seq_of [RBol; rep 2 digit; chr 47; rep 2 digit; plus ws; cls upper_uml; plus dot; REol].
Definition META_SHORTNAME : re :=
  seq_of [RBol; cls upper_uml; rep_range 0 8 (cls (upper_uml ++ lower_uml ++ [45%Z])); REol].
Definition META_NOR : re := seq_of [RBol; lit (u "NOR"); plus digit; REol].
Definition META_RISID : re :=
  seq_of [RBol; chr 78; rep_min 5 digit; cls (Parser.range 65 26); REol].
Definition META_GESETZESNUMMER : re := seq_of [RBol; rep_range 7 8 digit; REol].
Definition META_DATE : re :=
  seq_of [RBol; rep 2 digit; chr 46; rep 2 digit; chr 46; rep 4 digit; REol].
Definition META_AMENDMENT : re :=
  seq_of [RBol; rep_range 0 60 dot; chr 44; star ws; lit (u "BGBl"); opt (chr 46); star ws;
          alt_of [lit (u "Nr."); seq_of [chr 73; plus ws; lit (u "Nr.")]];
          star ws; plus digit; star dot; REol].
Definition META_CHAPTER : re :=
  seq_of [RBol;
          alt_of (map (fun w => lit_i (u w))
                   ["Erst"; "Zweit"; "Dritt"; "Viert"; "Fünft"; "Sechst"; "Siebent";
                    "Acht"; "Neunt"; "Zehnt"])%string;
          RSeq (chr_i 101) (opt (Parser.class_i (u "sr")));
          plus ws;
          alt_of [RSeq (lit_i (u "Haupt")) (alt_of [lit_i (u "stück"); lit_i (u "teil")]);
                  lit_i (u "Abschnitt"); lit_i (u "Teil"); lit_i (u "Buch")];
          opt (chr_i 46); REol].

Definition METADATA_LINE_PATTERNS : list re :=
  [META_BGBL; META_DOCTYPE; META_SECTION; META_INDEX; META_SHORTNAME; META_NOR;
   META_RISID; META_GESETZESNUMMER; META_DATE; META_AMENDMENT; META_CHAPTER].

(** [KEYWORD_LINE_PATTERN] *)
Definition kw_first : re := cls (upper_uml ++ lower_uml ++ [223%Z]).
Definition kw_rest : re := RChar (fun c => in_list (upper_uml ++ lower_uml ++ [223; 45]%Z) c || is_js_space c).
Definition KEYWORD_LINE_PATTERN : re :=
  seq_of [RBol; rep_min 2 (seq_of [kw_first; star kw_rest; chr 44; star ws]);
          kw_first; star kw_rest; opt (chr 44); REol].

(** [TRAILING_SECTION_REF] *)
Definition TRAILING_SECTION_REF : re :=
  seq_of [plus ws;
          alt_of [seq_of [lit (u "§"); star ws; plus digit; star wordc];
                  seq_of [lit (u "Artikel"); star ws; plus digit; star wordc]];
          opt (chr 46); star ws; REol].

(** The function words of [isKeywordLine], [/\b(?:ist|...|unter)\b/i]. *)
Definition FUNCTION_WORDS : list string :=
  ["ist"; "sind"; "wird"; "werden"; "hat"; "haben"; "kann"; "können"; "soll"; "sollen";
   "darf"; "dürfen"; "muss"; "müssen"; "gemäß"; "nach"; "durch"; "auf"; "über"; "bei";
   "unter"]%string.
Definition FUNCTION_WORD_PATTERN : re :=
  seq_of [RWordB; alt_of (map (fun w => lit_i (u w)) FUNCTION_WORDS); RWordB].

(** [/\n{3,}/g] *)
Definition BLANK_RUN : re := rep_min 3 (chr 10).

(** [isKeywordLine] *)
Definition isKeywordLine (line : jsstr) : bool :=
  if negb (test KEYWORD_LINE_PATTERN line) then false else
  let terms := map trim (split_on 44 line) in
  if existsb (fun t => 40 <? List.length t) terms then false else
  if test FUNCTION_WORD_PATTERN line then false else
  true.

(** Pass 1: the filter on the lines. *)
Definition keep_line (line : jsstr) : bool :=
  let trimmed := trim line in
  if negb (truthy trimmed) then false
  else negb (existsb (fun p => test p trimmed) METADATA_LINE_PATTERNS).

(** Pass 2: the [while] loop popping trailing keyword lines, on the reversed
    array. *)
Fixpoint pop_keywords_rev (rl : list jsstr) : list jsstr :=
  match rl with
  | [] => []
  | last :: t => if isKeywordLine (trim last) then pop_keywords_rev t else rl
  end.

Definition pop_trailing_keywords (lines : list jsstr) : list jsstr :=
  rev (pop_keywords_rev (rev lines)).

(** The lines left after both passes. *)
Definition cleaned_lines (content : jsstr) : list jsstr :=
  pop_trailing_keywords (filter keep_line (split_on 10 content)).

(** [cleanProvisionContent] *)
Definition cleanProvisionContent (content : jsstr) : jsstr :=
  let lines := cleaned_lines content in
  let cleaned := trim (join [10%Z] lines) in
  let cleaned := replace_first TRAILING_SECTION_REF cleaned [] in
  let cleaned := replace_all BLANK_RUN cleaned [10; 10]%Z in
  trim cleaned.

End Cleaner.

(* ------------------------------------------------------------------ *)
(** ** The full-text-search query builder ([src/utils/fts-query.ts]) *)

Module Fts.

Record FtsQueryVariants := mkVariants { primary : jsstr; fallback : option jsstr }.

(** [EXPLICIT_FTS_SYNTAX]: a double-quote unit, the words [AND], [OR],
    [NOT] between [\b] boundaries (groups 1 to 3), or a final [*]. *)
Definition EXPLICIT_FTS_SYNTAX : re :=
  alt_of [chr 34;
          RGroup 1 (seq_of [RWordB; lit (u "AND"); RWordB]);
          RGroup 2 (seq_of [RWordB; lit (u "OR"); RWordB]);
          RGroup 3 (seq_of [RWordB; lit (u "NOT"); RWordB]);
          RSeq (chr 42) REol].

(** [FTS5_SPECIAL_CHARS]: one unit among the double quote and [(){}^:+-~]. *)
Definition FTS5_SPECIAL_CHARS : re := RChar (in_list (u "()" ++ [34%Z] ++ u "{}^:+-~")).

(** [/\s+/] *)
Definition WS_RUN : re := plus ws.

Definition is_high_surrogate (c : Z) : bool := (55296 <=? c)%Z && (c <=? 56319)%Z.
Definition is_low_surrogate (c : Z) : bool := (56320 <=? c)%Z && (c <=? 57343)%Z.

Section WithUnicode.

(** The Unicode general categories [L] and [N] as predicates on code
    points (the property tables of [\p{L}] and [\p{N}]). *)
Variable is_letter is_number : Z -> bool.

Definition kept_code_point (cp : Z) : bool :=
  is_letter cp || is_number cp || (cp =? 95)%Z || (cp =? 45)%Z.

(** [sanitizeToken]: [token.replace(/[^\p{L}\p{N}_-]/gu, '')].  With the [u]
    flag the string is read by code points: a surrogate pair is one code
    point, kept or dropped whole. *)
Fixpoint sanitizeToken (t : jsstr) : jsstr :=
  match t with
  | [] => []
  | h :: rest =>
    if is_high_surrogate h then
      match rest with
      | l :: rest' =>
        if is_low_surrogate l then
          let cp := (65536 + (h - 55296) * 1024 + (l - 56320))%Z in
          if kept_code_point cp then h :: l :: sanitizeToken rest' else sanitizeToken rest'
        else if kept_code_point h then h :: sanitizeToken rest else sanitizeToken rest
      | [] => if kept_code_point h then [h] else []
      end
    else if kept_code_point h then h :: sanitizeToken rest else sanitizeToken rest
  end.

Definition quoted_prefix (t : jsstr) : jsstr := [34%Z] ++ t ++ [34; 42]%Z.

(** [buildSanitizedFallback] *)
Definition buildSanitizedFallback (query : jsstr) : option jsstr :=
  let tokens := filter truthy
                  (map sanitizeToken (split_re WS_RUN (replace_all FTS5_SPECIAL_CHARS query (u " ")))) in
  match tokens with
  | [] => None
  | _ => Some (join (u " OR ") (map quoted_prefix tokens))
  end.

(** The tokens of the plain branch of [buildFtsQueryVariants]. *)
Definition plain_tokens (trimmed : jsstr) : list jsstr :=
  filter truthy (map sanitizeToken (filter truthy (split_re WS_RUN trimmed))).

(** [buildFtsQueryVariants] *)
Definition buildFtsQueryVariants (query : jsstr) : FtsQueryVariants :=
  let trimmed := trim query in
  if test EXPLICIT_FTS_SYNTAX trimmed then
    {| primary := trimmed;
       fallback := match buildSanitizedFallback trimmed with
                   | Some f => if truthy f then Some f else None
                   | None => None
                   end |}
  else
    let tokens := plain_tokens trimmed in
    match tokens with
    | [] => {| primary := trimmed; fallback := None |}
    | _ => {| primary := join (u " ") (map quoted_prefix tokens);
              fallback := Some (join (u " OR ") (map (fun t => t ++ [42%Z]) tokens)) |}
    end.

End WithUnicode.

(** Unicode's [L] and [N] for the code points up to U+00FF (Basic Latin and
    Latin-1 Supplement), false above: enough for inputs in that range. *)
Definition latin1_letter (c : Z) : bool :=
  is_ascii_upper c || is_ascii_lower c || (c =? 170)%Z || (c =? 181)%Z || (c =? 186)%Z
  || ((192 <=? c)%Z && (c <=? 255)%Z && negb (c =? 215)%Z && negb (c =? 247)%Z).
Definition latin1_number (c : Z) : bool :=
  is_digit c || (c =? 178)%Z || (c =? 179)%Z || (c =? 185)%Z
  || ((188 <=? c)%Z && (c <=? 190)%Z).

End Fts.

(* ------------------------------------------------------------------ *)
(** ** The citation validator ([src/citation/validator.ts]) *)

Module Validator.

Import Parser.

Record ProvisionCandidateSet := mkCandidates {
  canonicalSection : jsstr;
  provisionRefs : list jsstr;
  sections : list jsstr
}.

Definition starts_with (p s : jsstr) : bool :=
  if list_eq_dec Z.eq_dec (firstn (List.length p) s) p then true else false.

Definition strip_marker (s : jsstr) : jsstr :=
  if starts_with (u "§") s then skipn 1 s
  else if starts_with (u "Paragraph") s then skipn 9 s
  else if starts_with (u "Paragraf") s then skipn 8 s
  else if starts_with (u "para") s then skipn 4 s
  else s.

Section Candidates.

(** The case variants of a machine key that the spec leaves open ("plus
    any case variants needed to match stored machine keys"). *)
Variable case_variants : jsstr -> list jsstr.

(** Modelled from the spec: [buildProvisionLookupCandidates] of
    [src/utils/provision-candidates.ts] is not among the sources.  Section
    4.3: a leading [§]/[Paragraph]/[Paragraf]/[para] marker and the
    surrounding whitespace are stripped to give [canonicalSection];
    [provisionRefs] is ["para" + canonicalSection] plus case variants,
    [sections] is ["§ " + canonicalSection, canonicalSection]; an empty
    input gives a set with all fields empty. *)
Definition buildProvisionLookupCandidates (ref : jsstr) : ProvisionCandidateSet :=
  let canonical := trim (strip_marker (trim ref)) in
  match canonical with
  | [] => {| canonicalSection := []; provisionRefs := []; sections := [] |}
  | _ => {| canonicalSection := canonical;
            provisionRefs := (u "para" ++ canonical) :: case_variants canonical;
            sections := [u "§ " ++ canonical; canonical] |}
  end.

(** The rows of the database the validator reads. *)
Record Document := mkDocument { doc_id : jsstr; doc_title : jsstr; doc_status : jsstr }.

(** The document store: [resolveExistingStatuteId] (of
    [src/utils/statute-id.ts], not among the sources) and the two SQL
    queries of [validateCitation]. *)
Record Store := mkStore {
  resolveExistingStatuteId : jsstr -> option jsstr;
  (** [SELECT id, title, status FROM legal_documents WHERE id = ? LIMIT 1] *)
  select_document : jsstr -> option Document;
  (** [SELECT 1 FROM legal_provisions WHERE document_id = ? AND
      (provision_ref = ? OR ... OR section = ? ...) LIMIT 1] *)
  select_provision : jsstr -> list jsstr -> list jsstr -> bool
}.

Record ValidationResult := mkValidation {
  citation : ParsedCitation;
  document_exists : bool;
  provision_exists : bool;
  document_title : option jsstr;
  status : option jsstr;
  warnings : list jsstr
}.

(** [/\bgesetz-\d+\b/i] *)
Definition EXPLICIT_ID : re :=
  seq_of [RWordB; lit_i (u "gesetz-"); plus digit_i; RWordB].

Definition first_match (r : re) (s : jsstr) : option jsstr :=
  match search s r with
  | Some (i, st) => Some (substring s i (fst st))
  | None => None
  end.

(** [parsed.title ?? citation.match(/\bgesetz-\d+\b/i)?.[0]] *)
Definition lookup_term (parsed : ParsedCitation) (cit : jsstr) : option jsstr :=
  match title parsed with Some t => Some t | None => first_match EXPLICIT_ID cit end.

(** [resolvedId ? db.prepare(...).get(resolvedId) : undefined] *)
Definition find_document (db : Store) (term : jsstr) : option Document :=
  match resolveExistingStatuteId db term with
  | Some rid => if truthy rid then select_document db rid else None
  | None => None
  end.

(** [validateCitation] *)
Definition validateCitation (db : Store) (cit : jsstr) : ValidationResult :=
  let parsed := parseCitation cit in
  if negb (valid parsed) then
    {| citation := parsed; document_exists := false; provision_exists := false;
       document_title := None; status := None;
       warnings := [match error parsed with Some e => e | None => u "Invalid citation format" end] |}
  else
  let lookupTerm := lookup_term parsed cit in
  match lookupTerm with
  | Some term =>
    if negb (truthy term) then
      {| citation := parsed; document_exists := false; provision_exists := false;
         document_title := None; status := None;
         warnings := [u "Citation must include either a statute title or statute ID (e.g. gesetz-10001622)."] |}
    else
    let doc := find_document db term in
    match doc with
    | None =>
      {| citation := parsed; document_exists := false; provision_exists := false;
         document_title := None; status := None;
         warnings := [u "Document " ++ [34%Z] ++ term ++ [34%Z] ++ u " not found in database"] |}
    | Some d =>
      let w1 := if list_eq_dec Z.eq_dec (doc_status d) (u "repealed")
                then [u "This statute has been repealed"] else [] in
      match section parsed with
      | Some sec =>
        if truthy sec then
          let candidates := buildProvisionLookupCandidates sec in
          let provisionExists :=
            select_provision db (doc_id d) (provisionRefs candidates) (sections candidates) in
          let w2 := if provisionExists then []
                    else [u "Section ยง " ++ sec ++ u " not found in " ++ doc_title d] in
          {| citation := parsed; document_exists := true; provision_exists := provisionExists;
             document_title := Some (doc_title d); status := Some (doc_status d);
             warnings := w1 ++ w2 |}
        else
          {| citation := parsed; document_exists := true; provision_exists := true;
             document_title := Some (doc_title d); status := Some (doc_status d);
             warnings := w1 |}
      | None =>
        {| citation := parsed; document_exists := true; provision_exists := true;
           document_title := Some (doc_title d); status := Some (doc_status d);
           warnings := w1 |}
      end
    end
  | None =>
    {| citation := parsed; document_exists := false; provision_exists := false;
       document_title := None; status := None;
       warnings := [u "Citation must include either a statute title or statute ID (e.g. gesetz-10001622)."] |}
  end.

End Candidates.

End Validator.

(* ------------------------------------------------------------------ *)
(** ** Relational reading of the patterns *)

Module RegexSemantics.

(** [Rel s r st st']: pattern [r] can match the units of [s] from state
    [st] to state [st']; the matcher [m] picks one of these matches. *)
Inductive Rel (s : jsstr) : re -> mstate -> mstate -> Prop :=
| RelChar p st c :
    nth_error s (fst st) = Some c -> p c = true -> Rel s (RChar p) st (S (fst st), snd st)
| RelSeq r1 r2 st st1 st2 : Rel s r1 st st1 -> Rel s r2 st1 st2 -> Rel s (RSeq r1 r2) st st2
| RelAltL r1 r2 st st' : Rel s r1 st st' -> Rel s (RAlt r1 r2) st st'
| RelAltR r1 r2 st st' : Rel s r2 st st' -> Rel s (RAlt r1 r2) st st'
| RelEmpty st : Rel s REmpty st st
| RelStarNil g r st : Rel s (RStar g r) st st
| RelStarCons g r st st1 st2 :
    Rel s r st st1 -> fst st < fst st1 -> Rel s (RStar g r) st1 st2 -> Rel s (RStar g r) st st2
| RelGroup n r st st1 :
    Rel s r st st1 -> Rel s (RGroup n r) st (fst st1, (n, (fst st, fst st1)) :: snd st1)
| RelBol st : fst st = 0 -> Rel s RBol st st
| RelEol st : fst st = List.length s -> Rel s REol st st
| RelWordB st : word_boundary s (fst st) = true -> Rel s RWordB st st.

(** The capture groups of a pattern with their bodies. *)
Fixpoint groups_of (r : re) : list (nat * re) :=
  match r with
  | RSeq r1 r2 | RAlt r1 r2 => groups_of r1 ++ groups_of r2
  | RStar _ r1 => groups_of r1
  | RGroup n r1 => (n, r1) :: groups_of r1
  | _ => []
  end.

(** Group [n] is set by every match of [r]. *)
Fixpoint sets_cap (n : nat) (r : re) : bool :=
  match r with
  | RGroup k r1 => Nat.eqb k n || sets_cap n r1
  | RSeq r1 r2 => sets_cap n r1 || sets_cap n r2
  | RAlt r1 r2 => sets_cap n r1 && sets_cap n r2
  | _ => false
  end.

End RegexSemantics.

Import RegexSemantics.

Module Vocabulary.

(** [needle] occurs in [hay] ([String.prototype.includes]). *)
Definition contains (hay needle : jsstr) : Prop := exists a b, hay = a ++ needle ++ b.

(** [x] is a non-empty string starting with an ASCII digit. *)
Definition digit_headed (x : jsstr) : Prop := exists d t, x = d :: t /\ is_digit d = true.

(** [w] occurs in [s] as a whole word, up to the case folding of the [i]
    flag: the units around the occurrence are not [\w] units. *)
Definition word_occurs (s w : jsstr) : Prop :=
  exists a v b, s = a ++ v ++ b /\ map canonicalize v = map canonicalize w /\
    match rev a with [] => True | c :: _ => is_word_char c = false end /\
    match b with [] => True | c :: _ => is_word_char c = false end.

(** A scan of [s] line by line: [None] when a line ended by a line feed
    is blank, otherwise [Some seen] with [seen] telling whether the last
    line has a non-space unit; [seen] is the state of the line begun
    before [s]. *)
Fixpoint line_scan (seen : bool) (s : jsstr) : option bool :=
  match s with
  | [] => Some seen
  | c :: t =>
    if (c =? 10)%Z then (if seen then line_scan false t else None)
    else line_scan (seen || negb (is_js_space c)) t
  end.

(** An ASCII unit is a letter, a digit, [_] or [-]. *)
Definition ascii_safe (c : Z) : Prop := (c < 128)%Z -> is_word_char c = true \/ c = 45%Z.

(** The tail [(?:\s+(\d{4}))?$] of the legacy English pattern. *)
Definition legacy_tail : re := RSeq (opt (RSeq (plus ws) (RGroup 3 (rep 4 Parser.digit_i)))) REol.

(** [xs] is obtained from [ys] by deleting elements: a subsequence. *)
Inductive subseq {A : Type} : list A -> list A -> Prop :=
| subseq_nil : subseq [] []
| subseq_keep x xs ys : subseq xs ys -> subseq (x :: xs) (x :: ys)
| subseq_skip x xs ys : subseq xs ys -> subseq xs (x :: ys).

(** Solves [exists rest, body = RSeq (plus digit_i) rest] from
    [I : In (n, body) (groups_of r)] for a concrete pattern [r]. *)
Ltac group_body I :=
  simpl in I;
  repeat (destruct I as [I|I];
          [first [inversion I; fail | inversion I; subst; eexists; reflexivity] |]);
  contradiction.

End Vocabulary.

Import Vocabulary.

(* ================================================================== *)
(** * Proofs *)

Module RegexFacts.

Section Facts.

Variable s : jsstr.

Lemma star_loop_sound r1 g k :
  (forall k' st x, m s r1 k' st = Some x -> exists st', Rel s r1 st st' /\ k' st' = Some x) ->
  forall fuel st0 x, star_loop (m s r1) g k fuel st0 = Some x ->
  exists st', Rel s (RStar g r1) st0 st' /\ k st' = Some x.
Proof.
  intros IH fuel. induction fuel as [|f IHf]; intros st0 x H; simpl in H; [discriminate|].
  assert (Hit : forall y,
    m s r1 (fun st1 => if fst st0 <? fst st1 then star_loop (m s r1) g k f st1 else None) st0
      = Some y -> exists st', Rel s (RStar g r1) st0 st' /\ k st' = Some y).
  { intros y Hy. apply IH in Hy as [st1 [R1 K1]].
    destruct (fst st0 <? fst st1) eqn:L; [|discriminate].
    apply IHf in K1 as [st' [R' K']]. exists st'. split; [|exact K'].
    apply RelStarCons with st1; auto. apply Nat.ltb_lt; exact L. }
  destruct g.
  - destruct (m s r1 _ st0) eqn:E.
    + inversion H; subst. apply Hit; first [exact E | reflexivity].
    + exists st0. split; [constructor | exact H].
  - destruct (k st0) eqn:E.
    + inversion H; subst. exists st0. split; [constructor | exact E].
    + apply Hit; exact H.
Qed.

Lemma m_sound : forall r k st x, m s r k st = Some x -> exists st', Rel s r st st' /\ k st' = Some x.
Proof.
  induction r as [p|r1 IH1 r2 IH2|r1 IH1 r2 IH2| |g r1 IH1|n r1 IH1| | |];
    intros k st x H; simpl in H.
  - destruct (nth_error s (fst st)) eqn:E; [|discriminate].
    destruct (p z) eqn:P; [|discriminate].
    eexists; split; [econstructor; eauto | exact H].
  - apply IH1 in H as [st1 [R1 K1]]. apply IH2 in K1 as [st2 [R2 K2]].
    exists st2; split; [econstructor; eauto | exact K2].
  - destruct (m s r1 k st) eqn:E.
    + inversion H; subst. apply IH1 in E as [st' [R K]]. exists st'; split; [apply RelAltL; exact R | exact K].
    + apply IH2 in H as [st' [R K]]. exists st'; split; [apply RelAltR; exact R | exact K].
  - exists st; split; [constructor | exact H].
  - change (star_loop (m s r1) g k (S (List.length s - fst st)) st = Some x) in H.
    eapply star_loop_sound; eauto.
  - apply IH1 in H as [st1 [R1 K1]]. eexists; split; [econstructor; exact R1 | exact K1].
  - destruct (Nat.eqb (fst st) 0) eqn:E; [|discriminate].
    exists st; split; [constructor; apply Nat.eqb_eq; exact E | exact H].
  - destruct (Nat.eqb (fst st) (List.length s)) eqn:E; [|discriminate].
    exists st; split; [constructor; apply Nat.eqb_eq; exact E | exact H].
  - destruct (word_boundary s (fst st)) eqn:E; [|discriminate].
    exists st; split; [constructor; exact E | exact H].
Qed.

Lemma Rel_mono r st st' : Rel s r st st' -> fst st <= fst st'.
Proof. induction 1; simpl in *; lia. Qed.

Lemma Rel_bound r st st' : Rel s r st st' -> fst st' <= Nat.max (fst st) (List.length s).
Proof.
  induction 1; simpl in *; try lia.
  assert (fst st < List.length s) by (apply nth_error_Some; congruence). lia.
Qed.

Lemma Rel_advance_bound r st st' : Rel s r st st' -> fst st < fst st' -> fst st' <= List.length s.
Proof. intros R L. pose proof (Rel_bound _ _ _ R). lia. Qed.

Lemma m_complete_gen r st st' :
  Rel s r st st' -> forall k x, k st' = Some x ->
  (exists y, m s r k st = Some y) /\
  (forall g r1 f, r = RStar g r1 -> List.length s - fst st < f ->
     exists y, star_loop (m s r1) g k f st = Some y).
Proof.
  induction 1 as [p st c E P|r1 r2 st st1 st2 R1 IH1 R2 IH2|r1 r2 st st' R IH|r1 r2 st st' R IH
                 |st|g r st|g r st st1 st2 R1 IH1 L R2 IH2|n r st st1 R IH|st E|st E|st E];
    intros k x Hk.
  - split; [|intros; discriminate]. simpl. rewrite E, P. eauto.
  - split; [|intros; discriminate]. simpl.
    destruct (IH2 k x Hk) as [[y Hy] _].
    destruct (IH1 (fun st0 => m s r2 k st0) y Hy) as [[z Hz] _]. eauto.
  - split; [|intros; discriminate]. simpl.
    destruct (IH k x Hk) as [[y Hy] _]. rewrite Hy. eauto.
  - split; [|intros; discriminate]. simpl.
    destruct (m s r1 k st); [eauto|].
    destruct (IH k x Hk) as [[y Hy] _]. eauto.
  - split; [simpl; eauto | intros; discriminate].
  - assert (HS : forall g' r1 f, RStar g r = RStar g' r1 -> List.length s - fst st < f ->
                 exists y, star_loop (m s r1) g' k f st = Some y).
    { intros g' r1 f Eq Lf. inversion Eq; subst.
      destruct f as [|f]; [lia|]. simpl. destruct g'.
      - destruct (m s r1 _ st); eauto.
      - rewrite Hk. eauto. }
    split; [|exact HS].
    change (exists y, star_loop (m s r) g k (S (List.length s - fst st)) st = Some y).
    apply (HS g r); auto; lia.
  - assert (HS : forall g' r1 f, RStar g r = RStar g' r1 -> List.length s - fst st < f ->
                 exists y, star_loop (m s r1) g' k f st = Some y).
    { intros g' r1 f Eq Lf. inversion Eq; subst.
      destruct f as [|f]; [lia|].
      assert (B : fst st1 <= List.length s) by (eapply Rel_advance_bound; eauto).
      destruct (IH2 k x Hk) as [_ HS2].
      destruct (HS2 g' r1 f eq_refl) as [y Hy]; [lia|].
      destruct (IH1 (fun st2' => if fst st <? fst st2' then star_loop (m s r1) g' k f st2' else None) y)
        as [[z Hz] _].
      { assert (T : (fst st <? fst st1) = true) by (apply Nat.ltb_lt; exact L).
        rewrite T. exact Hy. }
      simpl. destruct g'.
      - rewrite Hz. eauto.
      - destruct (k st); [eauto|]. rewrite Hz. eauto. }
    split; [|exact HS].
    change (exists y, star_loop (m s r) g k (S (List.length s - fst st)) st = Some y).
    apply (HS g r); auto; lia.
  - split; [|intros; discriminate]. simpl.
    destruct (IH (fun st2 => k (fst st2, (n, (fst st, fst st2)) :: snd st2)) x Hk) as [[y Hy] _].
    eauto.
  - split; [|intros; discriminate]. simpl. rewrite E. simpl. eauto.
  - split; [|intros; discriminate]. simpl. rewrite E, Nat.eqb_refl. eauto.
  - split; [|intros; discriminate]. simpl. rewrite E. eauto.
Qed.

Lemma m_complete r st st' k x :
  Rel s r st st' -> k st' = Some x -> exists y, m s r k st = Some y.
Proof. intros R K. exact (proj1 (m_complete_gen r st st' R k x K)). Qed.

Lemma lookup_cap_cons n k v caps :
  lookup_cap n ((k, v) :: caps) = if Nat.eqb k n then Some v else lookup_cap n caps.
Proof. reflexivity. Qed.

Lemma cap_origin r st st' :
  Rel s r st st' -> forall n a b, lookup_cap n (snd st') = Some (a, b) ->
  lookup_cap n (snd st) = Some (a, b) \/
  exists body c1 c2, In (n, body) (groups_of r) /\ Rel s body (a, c1) (b, c2).
Proof.
  induction 1 as [p st c E P|r1 r2 st st1 st2 R1 IH1 R2 IH2|r1 r2 st st' R IH|r1 r2 st st' R IH
                 |st|g r st|g r st st1 st2 R1 IH1 L R2 IH2|n0 r st st1 R IH|st E|st E|st E];
    intros n a b H; simpl in *.
  - auto.
  - destruct (IH2 n a b H) as [H1|[body [c1 [c2 [I B]]]]].
    + destruct (IH1 n a b H1) as [H2|[body [c1 [c2 [I B]]]]]; [auto|].
      right. exists body, c1, c2. split; [apply in_or_app; auto | exact B].
    + right. exists body, c1, c2. split; [apply in_or_app; auto | exact B].
  - destruct (IH n a b H) as [H1|[body [c1 [c2 [I B]]]]]; [auto|].
    right. exists body, c1, c2. split; [apply in_or_app; auto | exact B].
  - destruct (IH n a b H) as [H1|[body [c1 [c2 [I B]]]]]; [auto|].
    right. exists body, c1, c2. split; [apply in_or_app; auto | exact B].
  - auto.
  - auto.
  - destruct (IH2 n a b H) as [H1|[body [c1 [c2 [I B]]]]]; [|right; exists body, c1, c2; auto].
    destruct (IH1 n a b H1) as [H2|[body [c1 [c2 [I B]]]]]; [auto|].
    right. exists body, c1, c2. auto.
  - destruct (Nat.eqb n0 n) eqn:En.
    + apply Nat.eqb_eq in En. subst n0. inversion H; subst a b.
      right. exists r, (snd st), (snd st1). split; [left; reflexivity|].
      destruct st, st1; exact R.
    + destruct (IH n a b H) as [H1|[body [c1 [c2 [I B]]]]]; [auto|].
      right. exists body, c1, c2. auto.
  - auto.
  - auto.
  - auto.
Qed.

Lemma caps_persist r st st' n :
  Rel s r st st' -> lookup_cap n (snd st) <> None -> lookup_cap n (snd st') <> None.
Proof.
  induction 1; simpl; auto.
  destruct (Nat.eqb n0 n); [discriminate | auto].
Qed.

Lemma cap_defined r st st' n :
  Rel s r st st' -> sets_cap n r = true -> lookup_cap n (snd st') <> None.
Proof.
  induction 1; simpl; intros Hs; try discriminate.
  - apply orb_true_iff in Hs as [Hs|Hs].
    + eapply caps_persist; eauto.
    + auto.
  - apply andb_true_iff in Hs as [Hs _]. auto.
  - apply andb_true_iff in Hs as [_ Hs]. auto.
  - destruct (Nat.eqb n0 n) eqn:E; [discriminate|].
    simpl in Hs. auto.
Qed.

Lemma search_from_sound r : forall fuel i p st,
  search_from s r i fuel = Some (p, st) -> match_at s r p = Some st /\ i <= p.
Proof.
  induction fuel as [|f IH]; intros i p st H; simpl in H; [discriminate|].
  destruct (match_at s r i) eqn:E.
  - inversion H; subst. auto.
  - apply IH in H as [H1 H2]. split; [exact H1 | lia].
Qed.

Lemma match_at_sound r i st : match_at s r i = Some st -> Rel s r (i, []) st.
Proof.
  unfold match_at. intros H. apply m_sound in H as [st' [R K]].
  inversion K; subst. exact R.
Qed.

Lemma search_sound r p st : search s r = Some (p, st) -> Rel s r (p, []) st.
Proof.
  unfold search. intros H. apply search_from_sound in H as [H _].
  apply match_at_sound; exact H.
Qed.

Lemma match_at_complete r i st : Rel s r (i, []) st -> exists st', match_at s r i = Some st'.
Proof. intros R. unfold match_at. exact (m_complete _ _ _ _ _ R eq_refl). Qed.

Lemma search_from_complete r p y : match_at s r p = Some y ->
  forall fuel i, i <= p -> p < i + fuel -> exists q st, search_from s r i fuel = Some (q, st).
Proof.
  intros M fuel. induction fuel as [|f IH]; intros i L1 L2; [lia|].
  simpl. destruct (match_at s r i) eqn:E; [eauto|].
  apply IH; [|lia].
  destruct (Nat.eq_dec i p); [subst; congruence | lia].
Qed.

Lemma search_complete r p st : p <= List.length s -> Rel s r (p, []) st ->
  exists q st', search s r = Some (q, st').
Proof.
  intros L R. destruct (match_at_complete r p st R) as [y M].
  unfold search. eapply search_from_complete; eauto; lia.
Qed.

Lemma test_sound r : test r s = true -> exists p st, Rel s r (p, []) st.
Proof.
  unfold test. destruct (search s r) as [[p st]|] eqn:E; [|discriminate].
  intros _. exists p, st. apply search_sound; exact E.
Qed.

Lemma test_complete r p st : p <= List.length s -> Rel s r (p, []) st -> test r s = true.
Proof.
  intros L R. destruct (search_complete r p st L R) as [q [st' E]].
  unfold test. rewrite E. reflexivity.
Qed.

Lemma Rel_seq_inv r1 r2 st st' :
  Rel s (RSeq r1 r2) st st' -> exists st1, Rel s r1 st st1 /\ Rel s r2 st1 st'.
Proof. intros H; inversion H; subst; eauto. Qed.

Lemma Rel_char_inv p st st' :
  Rel s (RChar p) st st' ->
  exists c, nth_error s (fst st) = Some c /\ p c = true /\ st' = (S (fst st), snd st).
Proof. intros H; inversion H; subst; eauto. Qed.

Lemma Rel_alt_inv r1 r2 st st' : Rel s (RAlt r1 r2) st st' -> Rel s r1 st st' \/ Rel s r2 st st'.
Proof. intros H; inversion H; subst; auto. Qed.

Lemma Rel_empty_inv st st' : Rel s REmpty st st' -> st' = st.
Proof. intros H; inversion H; subst; auto. Qed.

Lemma Rel_bol_inv st st' : Rel s RBol st st' -> fst st = 0 /\ st' = st.
Proof. intros H; inversion H; subst; auto. Qed.

Lemma Rel_eol_inv st st' : Rel s REol st st' -> fst st = List.length s /\ st' = st.
Proof. intros H; inversion H; subst; auto. Qed.

Lemma Rel_wordb_inv st st' : Rel s RWordB st st' -> word_boundary s (fst st) = true /\ st' = st.
Proof. intros H; inversion H; subst; auto. Qed.

Lemma Rel_group_inv n r st st' :
  Rel s (RGroup n r) st st' ->
  exists st1, Rel s r st st1 /\ st' = (fst st1, (n, (fst st, fst st1)) :: snd st1).
Proof. intros H; inversion H; subst; eauto. Qed.

Lemma Rel_star_inv g r st st' :
  Rel s (RStar g r) st st' ->
  st' = st \/ exists st1, Rel s r st st1 /\ fst st < fst st1 /\ Rel s (RStar g r) st1 st'.
Proof. intros H; inversion H; subst; eauto. Qed.

Lemma nth_error_skipn_cons (l : jsstr) a d :
  nth_error l a = Some d -> skipn a l = d :: skipn (S a) l.
Proof.
  revert l. induction a as [|a IH]; intros [|x l] H; simpl in *; try discriminate.
  - inversion H; reflexivity.
  - apply IH; exact H.
Qed.

(** A capture whose text starts at a unit [d] of the subject. *)
Lemma substring_head a b d :
  nth_error s a = Some d -> a < b -> exists t, substring s a b = d :: t.
Proof.
  intros H L. unfold substring. rewrite (nth_error_skipn_cons s a d H).
  destruct (b - a) as [|k] eqn:E; [lia|]. simpl. eauto.
Qed.

End Facts.

End RegexFacts.

(* ------------------------------------------------------------------ *)
(** ** The parser and the formatter *)

Module ParserFacts.

Import Parser Formatter.

Lemma trim_start_all_space (cit : jsstr) :
  Forall (fun c => is_js_space c = true) cit -> trim_start cit = [].
Proof. induction 1 as [|c t Hc _ IH]; simpl; [reflexivity|]. rewrite Hc. exact IH. Qed.

Lemma trim_all_space (cit : jsstr) :
  Forall (fun c => is_js_space c = true) cit -> trim cit = [].
Proof. intros H. unfold trim, trim_end. rewrite (trim_start_all_space cit H). reflexivity. Qed.

(** Every result of [parseCitation] is a failure or the result of
    [parseSection] for the [Statute] type. *)
Lemma parseCitation_cases (cit : jsstr) :
  (exists e, parseCitation cit = invalid e) \/
  (exists sec t y, parseCitation cit = parseSection sec t y Statute).
Proof.
  unfold parseCitation.
  destruct (negb (truthy (trim cit))); [left; eauto|].
  destruct (two_groups (trim cit) SECTION_THEN_TITLE) as [[a b]|].
  { destruct (splitYear b). right; eauto. }
  destruct (two_groups (trim cit) TITLE_THEN_SECTION) as [[a b]|].
  { destruct (splitYear a). right; eauto. }
  destruct (two_groups (trim cit) MACHINE_REF_THEN_TITLE) as [[a b]|].
  { destruct (splitYear b). right; eauto. }
  destruct (legacy_form (trim cit)) as [p|] eqn:E.
  { unfold legacy_form in E.
    destruct (search (trim cit) LEGACY_ENGLISH) as [[i st]|]; [|discriminate].
    destruct (group (trim cit) st 1), (group (trim cit) st 2); try discriminate.
    destruct (truthy j && truthy j0); [|discriminate].
    inversion E; subst. right; eauto. }
  destruct (test BARE_MACHINE_REF (trim cit)); [right; eauto|].
  destruct (search (trim cit) BARE_SECTION) as [[i st]|]; [right; eauto | left; eauto].
Qed.

Lemma parseSection_valid sec t y ty : valid (parseSection sec t y ty) = true.
Proof. reflexivity. Qed.

Lemma parseSection_type sec t y ty : type (parseSection sec t y ty) = ty.
Proof. reflexivity. Qed.

(** C10: [parseCitation] never yields the [statutory_instrument] type: a
    valid result has type [Statute], an invalid one type [Unknown]. *)
Theorem parseCitation_never_statutory_instrument (cit : jsstr) :
  type (parseCitation cit) <> StatutoryInstrument /\
  (valid (parseCitation cit) = true -> type (parseCitation cit) = Statute) /\
  (valid (parseCitation cit) = false -> type (parseCitation cit) = Unknown).
Proof.
  destruct (parseCitation_cases cit) as [[e E]|[sec [t [y E]]]]; rewrite E.
  - simpl. repeat split; [discriminate | discriminate].
  - simpl. repeat split; [discriminate | discriminate].
Qed.

Lemma parseCitation_never_statutory_instrument_witness :
  valid (parseCitation (u "§ 3, DSG")) = true /\
  type (parseCitation (u "§ 3, DSG")) = Statute.
Proof.
  split; [vm_compute; reflexivity|].
  apply (proj1 (proj2 (parseCitation_never_statutory_instrument (u "§ 3, DSG")))).
  vm_compute. reflexivity.
Defined.

(** C8: the empty or whitespace-only citation fails with an error that
    contains [Empty], and [formatCitation] returns the empty string for a
    citation that is invalid or has no section, in every style. *)
Theorem failed_parse_formats_empty :
  (forall cit, Forall (fun c => is_js_space c = true) cit ->
     valid (parseCitation cit) = false /\
     exists e, error (parseCitation cit) = Some e /\ contains e (u "Empty")) /\
  (forall p f, valid p = false \/ section p = None -> formatCitation p f = []).
Proof.
  split.
  - intros cit H. unfold parseCitation. rewrite (trim_all_space cit H). simpl.
    split; [reflexivity|]. eexists; split; [reflexivity|].
    exists [], (u " citation"). reflexivity.
  - intros p f [H|H]; unfold formatCitation, opt_truthy; rewrite H; simpl;
      [reflexivity | destruct (negb (valid p)); reflexivity].
Qed.

Lemma failed_parse_formats_empty_witness :
  formatCitation (parseCitation []) Full = [] /\ valid (parseCitation (u " ")) = false.
Proof.
  split.
  - apply (proj2 failed_parse_formats_empty). left. vm_compute. reflexivity.
  - apply (proj1 failed_parse_formats_empty). repeat constructor.
Defined.

(** C7: [formatCitation(parseCitation("§ 3(1)(a), DSG"), "full")] is the
    input again; the parse has section [3], subsection [1], paragraph [a]
    and title [DSG]. *)
Theorem round_trip_DSG :
  section (parseCitation (u "§ 3(1)(a), DSG")) = Some (u "3") /\
  subsection (parseCitation (u "§ 3(1)(a), DSG")) = Some (u "1") /\
  paragraph (parseCitation (u "§ 3(1)(a), DSG")) = Some (u "a") /\
  title (parseCitation (u "§ 3(1)(a), DSG")) = Some (u "DSG") /\
  formatCitation (parseCitation (u "§ 3(1)(a), DSG")) Full = u "§ 3(1)(a), DSG".
Proof. vm_compute. repeat split. Qed.

End ParserFacts.

(* ------------------------------------------------------------------ *)
(** ** The validator *)

Module ValidatorFacts.

Import Parser Validator.

(** C9: the candidate set of the empty reference has all fields empty; the
    one of [§ 4a] has canonical section [4a], with [4a] among the sections
    and [para4a] among the provision references. *)
Theorem provision_candidates_examples (case_variants : jsstr -> list jsstr) :
  buildProvisionLookupCandidates case_variants [] =
    {| canonicalSection := []; provisionRefs := []; sections := [] |} /\
  canonicalSection (buildProvisionLookupCandidates case_variants (u "§ 4a")) = u "4a" /\
  In (u "4a") (sections (buildProvisionLookupCandidates case_variants (u "§ 4a"))) /\
  In (u "para4a") (provisionRefs (buildProvisionLookupCandidates case_variants (u "§ 4a"))).
Proof. vm_compute. intuition. Qed.

(** C5: a provision is only reported to exist in an existing document, and
    every early exit (invalid parse, no usable title or statute id,
    document not found) reports neither. *)
Theorem validate_provision_requires_document
    (case_variants : jsstr -> list jsstr) (db : Store) (cit : jsstr) :
  (provision_exists (validateCitation case_variants db cit) = true ->
   document_exists (validateCitation case_variants db cit) = true) /\
  (valid (parseCitation cit) = false \/
   Formatter.opt_truthy (lookup_term (parseCitation cit) cit) = false \/
   (exists term, lookup_term (parseCitation cit) cit = Some term /\ find_document db term = None) ->
   document_exists (validateCitation case_variants db cit) = false /\
   provision_exists (validateCitation case_variants db cit) = false).
Proof.
  unfold validateCitation.
  destruct (valid (parseCitation cit)) eqn:V; simpl; [|split; [discriminate | auto]].
  destruct (lookup_term (parseCitation cit) cit) as [term|] eqn:L; simpl;
    [|split; [discriminate | auto]].
  destruct (truthy term) eqn:T; simpl; [|split; [discriminate | auto]].
  destruct (find_document db term) as [d|] eqn:D; simpl; [|split; [discriminate | auto]].
  split.
  - intros _. destruct (section (parseCitation cit)) as [sec|]; [destruct (truthy sec)|]; reflexivity.
  - intros [H|[H|[t0 [H1 H2]]]]; [discriminate | discriminate |].
    inversion H1; subst. congruence.
Qed.

Lemma validate_provision_requires_document_witness :
  document_exists (validateCitation (fun _ => [])
    {| resolveExistingStatuteId := fun _ => None;
       select_document := fun _ => None;
       select_provision := fun _ _ _ => true |} (u "§ 3, DSG")) = false.
Proof.
  apply (proj2 (validate_provision_requires_document (fun _ => [])
    {| resolveExistingStatuteId := fun _ => None;
       select_document := fun _ => None;
       select_provision := fun _ _ _ => true |} (u "§ 3, DSG"))).
  right. right. exists (u "DSG"). split; [vm_compute; reflexivity | reflexivity].
Defined.

End ValidatorFacts.

(* ------------------------------------------------------------------ *)
(** ** Shape of the parsed sections *)

Module SectionFacts.

Import Parser RegexFacts.

Lemma canonicalize_to_digit c :
  (48 <= canonicalize c <= 57)%Z -> canonicalize c = c.
Proof.
  unfold canonicalize, is_ascii_lower.
  destruct ((97 <=? c)%Z && (c <=? 122)%Z) eqn:E1.
  { apply andb_true_iff in E1 as [A B]. apply Z.leb_le in A. apply Z.leb_le in B. lia. }
  destruct (c =? 181)%Z eqn:E2; [lia|].
  destruct ((224 <=? c)%Z && (c <=? 254)%Z && negb (c =? 247)%Z) eqn:E3.
  { apply andb_true_iff in E3 as [E3 _]. apply andb_true_iff in E3 as [A B].
    apply Z.leb_le in A. apply Z.leb_le in B. lia. }
  destruct (c =? 255)%Z; [lia | reflexivity].
Qed.

Lemma range_bounds a n x : In x (range a n) -> (a <= x < a + Z.of_nat n)%Z.
Proof.
  revert a. induction n as [|n IH]; intros a H; simpl in H; [contradiction|].
  destruct H as [H|H]; [subst; lia|]. apply IH in H. lia.
Qed.

Lemma canonicalize_digit x : (48 <= x <= 57)%Z -> canonicalize x = x.
Proof.
  intros H. unfold canonicalize, is_ascii_lower.
  replace ((97 <=? x)%Z && (x <=? 122)%Z) with false
    by (symmetry; apply andb_false_iff; left; apply Z.leb_gt; lia).
  replace (x =? 181)%Z with false by (symmetry; apply Z.eqb_neq; lia).
  replace ((224 <=? x)%Z && (x <=? 254)%Z && negb (x =? 247)%Z) with false
    by (symmetry; apply andb_false_iff; left; apply andb_false_iff; left; apply Z.leb_gt; lia).
  replace (x =? 255)%Z with false by (symmetry; apply Z.eqb_neq; lia).
  reflexivity.
Qed.

(** A unit matched by [[\d]] under the [i] flag is an ASCII digit. *)
Lemma digit_i_sound c :
  existsb (fun x => (canonicalize x =? canonicalize c)%Z) (range 48 10) = true ->
  is_digit c = true.
Proof.
  intros H. apply existsb_exists in H as [x [I E]].
  apply range_bounds in I. apply Z.eqb_eq in E. simpl in I.
  rewrite (canonicalize_digit x) in E by lia.
  assert (C : canonicalize c = c) by (apply canonicalize_to_digit; lia).
  unfold is_digit. apply andb_true_iff. split; apply Z.leb_le; lia.
Qed.

Lemma Rel_plus_digit_head s rest st st' :
  Rel s (RSeq (plus digit_i) rest) st st' ->
  exists d, nth_error s (fst st) = Some d /\ is_digit d = true /\ fst st < fst st'.
Proof.
  intros R. apply Rel_seq_inv in R as [st1 [R1 R2]].
  apply Rel_seq_inv in R1 as [st2 [R3 R4]].
  apply Rel_char_inv in R3 as [d [N [P E]]]. subst st2.
  exists d. split; [exact N|]. split; [apply digit_i_sound; exact P|].
  apply Rel_mono in R4. apply Rel_mono in R2. simpl in R4. lia.
Qed.

(** A capture whose group body starts with [[\d]+] is a non-empty string
    starting with a digit. *)
Lemma group_digit_head s r i st n g :
  search s r = Some (i, st) -> group s st n = Some g ->
  (forall body, In (n, body) (groups_of r) -> exists rest, body = RSeq (plus digit_i) rest) ->
  exists d t, g = d :: t /\ is_digit d = true.
Proof.
  intros S G B. unfold group in G.
  destruct (lookup_cap n (snd st)) as [[a b]|] eqn:L; [|discriminate].
  inversion G; subst g. apply search_sound in S.
  destruct (cap_origin s r _ _ S n a b L) as [H|[body [c1 [c2 [I R]]]]]; [discriminate|].
  destruct (B body I) as [rest E]. subst body.
  pose proof R as R'. apply Rel_plus_digit_head in R as [d [N [D Lt]]]. simpl in *.
  destruct (substring_head s a b d N Lt) as [t E]. exists d, t. auto.
Qed.

Lemma digit_not_space d : is_digit d = true -> is_js_space d = false.
Proof.
  unfold is_digit. intros H. apply andb_true_iff in H as [A B].
  apply Z.leb_le in A. apply Z.leb_le in B.
  assert (d = 48 \/ d = 49 \/ d = 50 \/ d = 51 \/ d = 52 \/ d = 53 \/ d = 54 \/ d = 55
          \/ d = 56 \/ d = 57)%Z as D by lia.
  repeat destruct D as [D|D]; subst d; reflexivity.
Qed.

Lemma trim_start_app_last l d :
  is_js_space d = false -> exists l', trim_start (l ++ [d]) = l' ++ [d].
Proof.
  intros H. induction l as [|a l IH]; simpl.
  - rewrite H. exists []. reflexivity.
  - destruct (is_js_space a); [exact IH | exists (a :: l); reflexivity].
Qed.

Lemma trim_head d t : is_js_space d = false -> exists t', trim (d :: t) = d :: t'.
Proof.
  intros H. unfold trim, trim_end. simpl. rewrite H. simpl.
  destruct (trim_start_app_last (rev t) d H) as [l' E]. rewrite E.
  rewrite rev_app_distr. simpl. eauto.
Qed.

Lemma para_prefix_digit d t :
  is_digit d = true -> replace_first PARA_PREFIX (d :: t) [] = d :: t.
Proof.
  intros D. unfold replace_first.
  destruct (search (d :: t) PARA_PREFIX) as [[i st]|] eqn:E; [|reflexivity].
  exfalso. apply search_sound in E.
  change PARA_PREFIX with (RSeq RBol (RSeq (chr_i 112) (seq_of [chr_i 97; chr_i 114; chr_i 97]))) in E.
  apply Rel_seq_inv in E as [st1 [R1 R2]]. apply Rel_bol_inv in R1 as [Z0 E1]. subst st1.
  simpl in Z0. subst i.
  apply Rel_seq_inv in R2 as [st2 [R3 _]]. apply Rel_char_inv in R3 as [c [N [P _]]].
  simpl in N. inversion N; subst c. apply Z.eqb_eq in P.
  unfold is_digit in D. apply andb_true_iff in D as [A B].
  apply Z.leb_le in A. apply Z.leb_le in B.
  rewrite canonicalize_digit in P by lia. vm_compute in P. lia.
Qed.

Lemma parseSection_section sec t y ty :
  digit_headed sec ->
  exists c t', section (parseSection sec t y ty) = Some (c :: t') /\ is_digit c = true.
Proof.
  intros [d [t0 [E D]]]. subst sec. unfold parseSection. cbn [section].
  rewrite (para_prefix_digit d t0 D).
  destruct (trim_head d t0 (digit_not_space d D)) as [t1 T]. rewrite T.
  destruct (search (d :: t1) SECTION_REF) as [[i st]|] eqn:S; [|eauto].
  destruct (group (d :: t1) st 1) as [g|] eqn:G; [|eauto].
  destruct (group_digit_head _ _ _ _ _ _ S G) as [c [t' [Eg Dc]]]; [|subst; eauto].
  intros body I. group_body I.
Qed.

Lemma two_groups_first s r a b :
  two_groups s r = Some (a, b) ->
  (forall body, In (1, body) (groups_of r) -> exists rest, body = RSeq (plus digit_i) rest) ->
  digit_headed a.
Proof.
  unfold two_groups. intros H B.
  destruct (search s r) as [[i st]|] eqn:S; [|discriminate].
  destruct (group s st 1) as [g1|] eqn:G1; [|discriminate].
  destruct (group s st 2) as [g2|]; [|discriminate].
  destruct (truthy g1 && truthy g2); inversion H; subst.
  exact (group_digit_head s r i st 1 a S G1 B).
Qed.

Lemma two_groups_second s r a b :
  two_groups s r = Some (a, b) ->
  (forall body, In (2, body) (groups_of r) -> exists rest, body = RSeq (plus digit_i) rest) ->
  digit_headed b.
Proof.
  unfold two_groups. intros H B.
  destruct (search s r) as [[i st]|] eqn:S; [|discriminate].
  destruct (group s st 1) as [g1|]; [|discriminate].
  destruct (group s st 2) as [g2|] eqn:G2; [|discriminate].
  destruct (truthy g1 && truthy g2); inversion H; subst.
  exact (group_digit_head s r i st 2 b S G2 B).
Qed.

Lemma legacy_form_shape s p :
  legacy_form s = Some p -> exists sec t y, digit_headed sec /\ p = parseSection sec t y Statute.
Proof.
  unfold legacy_form. intros H.
  destruct (search s LEGACY_ENGLISH) as [[i st]|] eqn:S; [|discriminate].
  destruct (group s st 1) as [g1|] eqn:G1; [|discriminate].
  destruct (group s st 2) as [g2|]; [|discriminate].
  destruct (truthy g1 && truthy g2); inversion H; subst.
  do 3 eexists. split; [|reflexivity].
  apply (group_digit_head s LEGACY_ENGLISH i st 1 g1 S G1).
  intros body I. group_body I.
Qed.

Lemma bare_machine_ref_shape s :
  test BARE_MACHINE_REF s = true -> digit_headed (skipn 4 s).
Proof.
  intros H. apply test_sound in H as [p [st R]].
  change BARE_MACHINE_REF with
    (RSeq RBol (RSeq (RSeq (chr_i 112) (RSeq (chr_i 97) (RSeq (chr_i 114) (chr_i 97))))
                     (RSeq (plus digit_i) (RSeq (opt az_i) REol)))) in R.
  apply Rel_seq_inv in R as [st1 [R1 R]]. apply Rel_bol_inv in R1 as [Z0 E]. subst st1.
  simpl in Z0. subst p.
  apply Rel_seq_inv in R as [st2 [R1 R]].
  apply Rel_seq_inv in R1 as [st3 [C1 R1]]. apply Rel_char_inv in C1 as [_ [_ [_ E1]]].
  apply Rel_seq_inv in R1 as [st4 [C2 R1]]. apply Rel_char_inv in C2 as [_ [_ [_ E2]]].
  apply Rel_seq_inv in R1 as [st5 [C3 C4]]. apply Rel_char_inv in C3 as [_ [_ [_ E3]]].
  apply Rel_char_inv in C4 as [_ [_ [_ E4]]]. subst. simpl in R.
  apply Rel_plus_digit_head in R as [d [N [D _]]]. simpl in N.
  exists d, (skipn 5 s). split; [apply nth_error_skipn_cons; exact N | exact D].
Qed.

Lemma bare_section_shape s i st :
  search s BARE_SECTION = Some (i, st) ->
  digit_headed (match group s st 1 with Some g => g | None => [] end).
Proof.
  intros S. destruct (group s st 1) as [g|] eqn:G.
  - apply (group_digit_head s BARE_SECTION i st 1 g S G). intros body I. group_body I.
  - exfalso. pose proof (search_sound s _ _ _ S) as R.
    apply (cap_defined s _ _ _ 1 R); [reflexivity|].
    unfold group in G. destruct (lookup_cap 1 (snd st)) as [[a b]|]; [discriminate | reflexivity].
Qed.

(** Every result of [parseCitation] is a failure or the result of
    [parseSection] on a section string that starts with a digit. *)
Lemma parseCitation_shape (cit : jsstr) :
  (exists e, parseCitation cit = invalid e) \/
  (exists sec t y, digit_headed sec /\ parseCitation cit = parseSection sec t y Statute).
Proof.
  unfold parseCitation.
  destruct (negb (truthy (trim cit))); [left; eauto|].
  destruct (two_groups (trim cit) SECTION_THEN_TITLE) as [[a b]|] eqn:E.
  { destruct (splitYear b). right. do 3 eexists. split; [|reflexivity].
    apply (two_groups_first _ _ a b E). intros body I. group_body I. }
  destruct (two_groups (trim cit) TITLE_THEN_SECTION) as [[a b]|] eqn:E2.
  { destruct (splitYear a). right. do 3 eexists. split; [|reflexivity].
    apply (two_groups_second _ _ a b E2). intros body I. group_body I. }
  destruct (two_groups (trim cit) MACHINE_REF_THEN_TITLE) as [[a b]|] eqn:E3.
  { destruct (splitYear b). right. do 3 eexists. split; [|reflexivity].
    apply (two_groups_first _ _ a b E3). intros body I. group_body I. }
  destruct (legacy_form (trim cit)) as [p|] eqn:E4.
  { right. exact (legacy_form_shape _ _ E4). }
  destruct (test BARE_MACHINE_REF (trim cit)) eqn:E5.
  { right. do 3 eexists. split; [|reflexivity]. apply bare_machine_ref_shape; exact E5. }
  destruct (search (trim cit) BARE_SECTION) as [[i st]|] eqn:E6; [|left; eauto].
  right. do 3 eexists. split; [|reflexivity]. apply (bare_section_shape _ i st E6).
Qed.

(** C1: [parseCitation] is a total function (it is defined on every
    string and returns a [ParsedCitation]); a valid result has a section
    that is a non-empty string (starting with a digit), an invalid one has
    an error and no title, year, section, subsection or paragraph. *)
Theorem parseCitation_invariant (cit : jsstr) :
  (valid (parseCitation cit) = true ->
   exists c t, section (parseCitation cit) = Some (c :: t) /\ is_digit c = true) /\
  (valid (parseCitation cit) = false ->
   (exists e, error (parseCitation cit) = Some e) /\
   title (parseCitation cit) = None /\ year (parseCitation cit) = None /\
   section (parseCitation cit) = None /\ subsection (parseCitation cit) = None /\
   paragraph (parseCitation cit) = None).
Proof.
  destruct (parseCitation_shape cit) as [[e E]|[sec [t [y [D E]]]]]; rewrite E.
  - split; [discriminate|]. intros _. simpl. eauto 10.
  - split; [intros _; apply parseSection_section; exact D | discriminate].
Qed.

Lemma parseCitation_invariant_witness :
  exists c t, section (parseCitation (u "Paragraph 12b ABGB")) = Some (c :: t) /\ is_digit c = true.
Proof.
  apply (proj1 (parseCitation_invariant (u "Paragraph 12b ABGB"))). vm_compute. reflexivity.
Defined.

End SectionFacts.

(* ------------------------------------------------------------------ *)
(** ** The full-text query builder *)

Module FtsFacts.

Import Fts.

Section FtsSafety.

Variables is_letter is_number : Z -> bool.

(** Unicode's [L] and [N] restricted to ASCII are the ASCII letters and
    digits. *)
Hypothesis ascii_letter : forall c, (c < 128)%Z -> is_letter c = is_ascii_upper c || is_ascii_lower c.
Hypothesis ascii_number : forall c, (c < 128)%Z -> is_number c = is_digit c.

Lemma kept_ascii_safe c : kept_code_point is_letter is_number c = true -> ascii_safe c.
Proof.
  unfold kept_code_point, ascii_safe, is_word_char. intros K L.
  rewrite (ascii_letter c L), (ascii_number c L) in K.
  destruct (is_ascii_upper c), (is_ascii_lower c), (is_digit c); simpl in *; auto.
  destruct (c =? 95)%Z eqn:E1; simpl in *; auto.
  apply Z.eqb_eq in K. auto.
Qed.

Lemma surrogate_ascii_safe c : is_high_surrogate c = true \/ is_low_surrogate c = true -> ascii_safe c.
Proof.
  unfold is_high_surrogate, is_low_surrogate, ascii_safe.
  intros [H|H] L; apply andb_true_iff in H as [H _]; apply Z.leb_le in H; lia.
Qed.

Lemma sanitizeToken_safe_len n : forall t, List.length t <= n ->
  Forall ascii_safe (sanitizeToken is_letter is_number t).
Proof.
  induction n as [|n IH]; intros t Lt.
  { destruct t; [constructor | simpl in Lt; lia]. }
  destruct t as [|h rest]; [constructor|]. simpl in Lt. simpl.
  destruct (is_high_surrogate h) eqn:Hh.
  - destruct rest as [|l rest'].
    + destruct (kept_code_point is_letter is_number h) eqn:K; constructor.
      * apply kept_ascii_safe; exact K.
      * constructor.
    + simpl in Lt. destruct (is_low_surrogate l) eqn:Hl.
      * destruct (kept_code_point _ _ _).
        -- constructor; [apply surrogate_ascii_safe; auto|].
           constructor; [apply surrogate_ascii_safe; auto|]. apply IH. lia.
        -- apply IH. lia.
      * destruct (kept_code_point is_letter is_number h) eqn:K.
        -- constructor; [apply kept_ascii_safe; exact K|]. apply IH. simpl. lia.
        -- apply IH. simpl. lia.
  - destruct (kept_code_point is_letter is_number h) eqn:K.
    + constructor; [apply kept_ascii_safe; exact K|]. apply IH. lia.
    + apply IH. lia.
Qed.

Lemma sanitizeToken_safe t : Forall ascii_safe (sanitizeToken is_letter is_number t).
Proof. apply (sanitizeToken_safe_len (List.length t)). lia. Qed.

Lemma plain_tokens_safe s :
  Forall (fun t => t <> [] /\ Forall ascii_safe t) (plain_tokens is_letter is_number s).
Proof.
  apply Forall_forall. intros t I. unfold plain_tokens in I.
  apply filter_In in I as [I T]. apply in_map_iff in I as [x [E _]]. subst t.
  split; [destruct (sanitizeToken _ _ x); [discriminate | discriminate] | apply sanitizeToken_safe].
Qed.

(** C3 (amended): for a query with no explicit search syntax, either some
    token survives sanitisation, and then [primary] is the space-joined
    list of the tokens, each quoted and prefix-wildcarded, non-empty and
    free of ASCII units other than letters, digits, [_] and [-] (so of the
    double quote and the special characters of the query grammar); or no
    token survives, and then [primary] is the trimmed input itself, with no
    fallback. *)
Theorem fts_plain_primary (q : jsstr) :
  test EXPLICIT_FTS_SYNTAX (trim q) = false ->
  (plain_tokens is_letter is_number (trim q) <> [] ->
   primary (buildFtsQueryVariants is_letter is_number q) =
     join (u " ") (map quoted_prefix (plain_tokens is_letter is_number (trim q))) /\
   Forall (fun t => t <> [] /\ Forall ascii_safe t) (plain_tokens is_letter is_number (trim q))) /\
  (plain_tokens is_letter is_number (trim q) = [] ->
   primary (buildFtsQueryVariants is_letter is_number q) = trim q /\
   fallback (buildFtsQueryVariants is_letter is_number q) = None).
Proof.
  intros H. unfold buildFtsQueryVariants. rewrite H.
  destruct (plain_tokens is_letter is_number (trim q)) as [|t ts] eqn:E.
  - split; [intros N; congruence | intros _; auto].
  - split; [|discriminate]. intros _. split; [reflexivity|].
    rewrite <- E. apply plain_tokens_safe.
Qed.

End FtsSafety.

Lemma latin1_ascii_letter c : (c < 128)%Z -> latin1_letter c = is_ascii_upper c || is_ascii_lower c.
Proof.
  intros L. unfold latin1_letter.
  replace (c =? 170)%Z with false by (symmetry; apply Z.eqb_neq; lia).
  replace (c =? 181)%Z with false by (symmetry; apply Z.eqb_neq; lia).
  replace (c =? 186)%Z with false by (symmetry; apply Z.eqb_neq; lia).
  replace (192 <=? c)%Z with false by (symmetry; apply Z.leb_gt; lia).
  simpl. rewrite !orb_false_r. reflexivity.
Qed.

Lemma latin1_ascii_number c : (c < 128)%Z -> latin1_number c = is_digit c.
Proof.
  intros L. unfold latin1_number.
  replace (c =? 178)%Z with false by (symmetry; apply Z.eqb_neq; lia).
  replace (c =? 179)%Z with false by (symmetry; apply Z.eqb_neq; lia).
  replace (c =? 185)%Z with false by (symmetry; apply Z.eqb_neq; lia).
  replace (188 <=? c)%Z with false by (symmetry; apply Z.leb_gt; lia).
  simpl. rewrite !orb_false_r. reflexivity.
Qed.

Lemma join_quoted_head ts : ts <> [] -> exists t, join (u " ") (map quoted_prefix ts) = 34%Z :: t.
Proof.
  destruct ts as [|t ts]; [congruence|]. intros _.
  destruct ts; simpl; eexists; reflexivity.
Qed.

(** C3 (counterexample): the punctuation-only query [(] has no explicit
    syntax, yet its [primary] is [(] itself, unquoted: it is not a list of
    quoted, prefix-wildcarded tokens. *)
Lemma fts_paren_primary_unquoted :
  test EXPLICIT_FTS_SYNTAX (trim (u "(")) = false /\
  primary (buildFtsQueryVariants latin1_letter latin1_number (u "(")) = u "(" /\
  forall ts, primary (buildFtsQueryVariants latin1_letter latin1_number (u "(")) <>
             join (u " ") (map quoted_prefix ts).
Proof.
  split; [vm_compute; reflexivity|]. split; [vm_compute; reflexivity|].
  intros ts. destruct ts as [|t ts].
  - vm_compute. discriminate.
  - destruct (join_quoted_head (t :: ts)) as [x E]; [discriminate|]. rewrite E.
    vm_compute. discriminate.
Qed.

Lemma fts_plain_primary_witness :
  test EXPLICIT_FTS_SYNTAX (trim (u "  Daten   Schutz ")) = false /\
  primary (buildFtsQueryVariants latin1_letter latin1_number (u "  Daten   Schutz ")) =
    join (u " ") (map quoted_prefix
      (plain_tokens latin1_letter latin1_number (trim (u "  Daten   Schutz ")))).
Proof.
  split; [vm_compute; reflexivity|].
  apply (fts_plain_primary latin1_letter latin1_number latin1_ascii_letter latin1_ascii_number
           (u "  Daten   Schutz ")); [vm_compute; reflexivity | vm_compute; discriminate].
Defined.

End FtsFacts.

(* ------------------------------------------------------------------ *)
(** ** The content cleaner: lines with function words *)

Module KeywordFacts.

Import Cleaner RegexFacts.

Lemma Rel_alt_of s l r st st' : In r l -> Rel s r st st' -> Rel s (alt_of l) st st'.
Proof.
  induction l as [|r0 l IH]; intros I R; [contradiction|].
  destruct I as [E|I]; [subst; apply RelAltL; exact R | apply RelAltR; apply IH; auto].
Qed.

Lemma nth_error_middle (a v b : jsstr) y v' :
  v = y :: v' -> nth_error (a ++ v ++ b) (List.length a) = Some y.
Proof. intros E. subst v. rewrite nth_error_app2 by lia. rewrite Nat.sub_diag. reflexivity. Qed.

(** [lit_i w] matches any case variant [v] of [w]. *)
Lemma lit_i_rel w : forall v a b c,
  map canonicalize v = map canonicalize w ->
  Rel (a ++ v ++ b) (lit_i w) (List.length a, c) (List.length a + List.length w, c).
Proof.
  induction w as [|x w IH]; intros v a b c E.
  - rewrite Nat.add_0_r. constructor.
  - destruct v as [|y v]; [discriminate|]. simpl in E. inversion E as [[Ey Ev]].
    assert (Rc : Rel (a ++ (y :: v) ++ b) (chr_i x) (List.length a, c) (S (List.length a), c)).
    { apply (RelChar _ _ (List.length a, c) y); [eapply nth_error_middle; reflexivity|].
      simpl. rewrite Ey. apply Z.eqb_refl. }
    destruct w as [|z w].
    + simpl. rewrite Nat.add_1_r. exact Rc.
    + change (lit_i (x :: z :: w)) with (RSeq (chr_i x) (lit_i (z :: w))).
      apply RelSeq with (S (List.length a), c); [exact Rc|].
      specialize (IH v (a ++ [y]) b c Ev).
      rewrite <- app_assoc in IH. simpl in IH. rewrite length_app in IH. simpl in IH.
      replace (List.length a + List.length (x :: z :: w)) with (List.length a + 1 + S (List.length w))
        by (simpl; lia).
      replace (S (List.length a)) with (List.length a + 1) by lia. exact IH.
Qed.

Lemma canon_ascii_letter x y :
  (is_ascii_upper x || is_ascii_lower x) = true -> canonicalize y = canonicalize x ->
  is_word_char y = true.
Proof.
  intros L E.
  assert (Cx : (65 <= canonicalize x <= 90)%Z).
  { unfold is_ascii_upper, is_ascii_lower in L. unfold canonicalize, is_ascii_lower.
    apply orb_true_iff in L as [L|L]; apply andb_true_iff in L as [A B];
      apply Z.leb_le in A; apply Z.leb_le in B.
    - replace ((97 <=? x)%Z && (x <=? 122)%Z) with false
        by (symmetry; apply andb_false_iff; left; apply Z.leb_gt; lia).
      replace (x =? 181)%Z with false by (symmetry; apply Z.eqb_neq; lia).
      replace ((224 <=? x)%Z && (x <=? 254)%Z && negb (x =? 247)%Z) with false
        by (symmetry; apply andb_false_iff; left; apply andb_false_iff; left; apply Z.leb_gt; lia).
      replace (x =? 255)%Z with false by (symmetry; apply Z.eqb_neq; lia). lia.
    - replace ((97 <=? x)%Z && (x <=? 122)%Z) with true
        by (symmetry; apply andb_true_iff; split; apply Z.leb_le; lia). lia. }
  rewrite <- E in Cx. clear E L.
  unfold is_word_char, is_ascii_upper, is_ascii_lower.
  unfold canonicalize, is_ascii_lower in Cx.
  destruct ((97 <=? y)%Z && (y <=? 122)%Z) eqn:E1.
  { destruct ((65 <=? y)%Z && (y <=? 90)%Z); reflexivity. }
  destruct (y =? 181)%Z; [lia|].
  destruct ((224 <=? y)%Z && (y <=? 254)%Z && negb (y =? 247)%Z) eqn:E3.
  { apply andb_true_iff in E3 as [E3 _]. apply andb_true_iff in E3 as [A _].
    apply Z.leb_le in A. lia. }
  destruct (y =? 255)%Z; [lia|].
  replace ((65 <=? y)%Z && (y <=? 90)%Z) with true
    by (symmetry; apply andb_true_iff; split; apply Z.leb_le; lia). reflexivity.
Qed.

Lemma word_at_app_last (a : jsstr) rest c :
  rev a = c :: rest ->
  List.length a = S (List.length rest) /\
  forall t, is_word_at (a ++ t) (List.length rest) = is_word_char c.
Proof.
  intros E. assert (A : a = rev rest ++ [c]) by (rewrite <- (rev_involutive a), E; reflexivity).
  subst a. rewrite length_app, length_rev. simpl. split; [lia|].
  intros t. unfold is_word_at. rewrite <- app_assoc. rewrite nth_error_app2 by (rewrite length_rev; lia).
  rewrite length_rev, Nat.sub_diag. reflexivity.
Qed.

Lemma word_boundary_start (a v b : jsstr) y v' :
  v = y :: v' -> is_word_char y = true ->
  match rev a with [] => True | c :: _ => is_word_char c = false end ->
  word_boundary (a ++ v ++ b) (List.length a) = true.
Proof.
  intros Ev Wy Ba. unfold word_boundary.
  assert (Hb : is_word_at (a ++ v ++ b) (List.length a) = true).
  { unfold is_word_at. rewrite (nth_error_middle a v b y v' Ev). exact Wy. }
  rewrite Hb. destruct (rev a) as [|c rest] eqn:Ra.
  - assert (a = []) by (rewrite <- (rev_involutive a), Ra; reflexivity). subst a. reflexivity.
  - destruct (word_at_app_last a rest c Ra) as [La Wa]. rewrite La, Wa, Ba. reflexivity.
Qed.

Lemma word_boundary_end (a v b : jsstr) z rv :
  rev v = z :: rv -> is_word_char z = true ->
  match b with [] => True | c :: _ => is_word_char c = false end ->
  word_boundary (a ++ v ++ b) (List.length a + List.length v) = true.
Proof.
  intros Rv Wz Bb. unfold word_boundary.
  destruct (word_at_app_last (a ++ v) (rv ++ rev a) z) as [L W].
  { rewrite rev_app_distr, Rv. reflexivity. }
  rewrite <- length_app, L, app_assoc, W, Wz.
  unfold is_word_at. rewrite nth_error_app2 by lia.
  rewrite L, Nat.sub_diag. destruct b as [|c b]; [reflexivity|].
  simpl. simpl in Bb. rewrite Bb. reflexivity.
Qed.

(** The pattern of function words finds a whole-word occurrence of a
    function word that starts and ends with an ASCII letter. *)
Lemma function_word_test s w :
  In w FUNCTION_WORDS ->
  (is_ascii_upper (hd 0%Z (u w)) || is_ascii_lower (hd 0%Z (u w))) = true ->
  (is_ascii_upper (hd 0%Z (rev (u w))) || is_ascii_lower (hd 0%Z (rev (u w)))) = true ->
  word_occurs s (u w) -> test FUNCTION_WORD_PATTERN s = true.
Proof.
  intros I H1 H2 [a [v [b [E [C [Ba Bb]]]]]]. subst s.
  assert (Lv : List.length v = List.length (u w)) by (rewrite <- (length_map canonicalize v), C; apply length_map).
  destruct (u w) as [|x w'] eqn:Uw; [discriminate|].
  destruct v as [|y v']; [discriminate|].
  assert (Ey : canonicalize y = canonicalize x) by (simpl in C; inversion C; reflexivity).
  assert (Wy : is_word_char y = true) by (apply (canon_ascii_letter x y); [exact H1 | exact Ey]).
  destruct (rev (x :: w')) as [|z rw] eqn:Rw; [apply (f_equal (@List.length Z)) in Rw; rewrite length_rev in Rw; discriminate|].
  destruct (rev (y :: v')) as [|z' rv] eqn:Rv; [apply (f_equal (@List.length Z)) in Rv; rewrite length_rev in Rv; discriminate|].
  assert (Ez : canonicalize z' = canonicalize z).
  { assert (M : map canonicalize (rev (y :: v')) = map canonicalize (rev (x :: w')))
      by (rewrite !map_rev, C; reflexivity).
    rewrite Rv, Rw in M. inversion M; reflexivity. }
  assert (Wz : is_word_char z' = true) by (apply (canon_ascii_letter z z'); [exact H2 | exact Ez]).
  set (s := a ++ (y :: v') ++ b).
  apply (test_complete s _ (List.length a) (List.length a + List.length (x :: w'), [])).
  { subst s. rewrite length_app, length_app. simpl in Lv |- *. lia. }
  change FUNCTION_WORD_PATTERN with
    (RSeq RWordB (RSeq (alt_of (map (fun w => lit_i (u w)) FUNCTION_WORDS)) RWordB)).
  apply RelSeq with (List.length a, @nil (nat * (nat * nat))).
  { constructor. simpl. subst s. apply (word_boundary_start a (y :: v') b y v' eq_refl Wy Ba). }
  apply RelSeq with (List.length a + List.length (x :: w'), @nil (nat * (nat * nat))).
  { apply (Rel_alt_of _ _ (lit_i (u w))); [apply (in_map (fun w => lit_i (u w))); exact I|].
    rewrite Uw. subst s. apply lit_i_rel. rewrite C. reflexivity. }
  constructor. subst s.
  match goal with |- word_boundary _ ?p = true =>
    replace p with (List.length a + List.length (y :: v')) by (simpl in Lv |- *; lia) end.
  apply (word_boundary_end a (y :: v') b z' rv Rv Wz Bb).
Qed.

(** Every function word except [über] and [gemäß] starts and ends with an
    ASCII letter. *)
Lemma function_word_ends w :
  In w FUNCTION_WORDS -> w <> "über"%string -> w <> "gemäß"%string ->
  (is_ascii_upper (hd 0%Z (u w)) || is_ascii_lower (hd 0%Z (u w))) = true /\
  (is_ascii_upper (hd 0%Z (rev (u w))) || is_ascii_lower (hd 0%Z (rev (u w)))) = true.
Proof.
  intros I N1 N2. unfold FUNCTION_WORDS in I.
  repeat (destruct I as [I|I]; [subst w; first [exfalso; auto; fail | split; vm_compute; reflexivity] |]).
  contradiction.
Qed.

Lemma pop_keywords_rev_keeps l : forall rl,
  In l rl -> isKeywordLine (trim l) = false -> In l (pop_keywords_rev rl).
Proof.
  induction rl as [|x rl IH]; intros I K; [contradiction|]. simpl.
  destruct (isKeywordLine (trim x)) eqn:Kx; [|exact I].
  destruct I as [E|I]; [subst; congruence | auto].
Qed.

Lemma pop_trailing_keywords_keeps l lines :
  In l lines -> isKeywordLine (trim l) = false -> In l (pop_trailing_keywords lines).
Proof.
  intros I K. unfold pop_trailing_keywords. apply in_rev. rewrite rev_involutive.
  apply pop_keywords_rev_keeps; [apply in_rev; rewrite rev_involutive; exact I | exact K].
Qed.

Lemma function_word_not_keyword line :
  test FUNCTION_WORD_PATTERN line = true -> isKeywordLine line = false.
Proof.
  intros T. unfold isKeywordLine. rewrite T.
  destruct (negb (test KEYWORD_LINE_PATTERN line)); [reflexivity|].
  destruct (existsb _ _); reflexivity.
Qed.

(** C4: a line of the content that is not blank, matches none of the
    metadata patterns and contains, as a whole word and in any case, one of
    the function words of [isKeywordLine] other than [über] and [gemäß], is
    kept by both passes of [cleanProvisionContent]. For [über] and [gemäß]
    the guard fails: the ASCII [\b] of its regex finds no word boundary
    before [ü] or after [ß]. *)
Theorem function_word_line_kept (content l : jsstr) (w : string) :
  In l (split_on 10 content) ->
  truthy (trim l) = true ->
  (forall p, In p METADATA_LINE_PATTERNS -> test p (trim l) = false) ->
  In w FUNCTION_WORDS -> w <> "über"%string -> w <> "gemäß"%string ->
  word_occurs (trim l) (u w) ->
  In l (cleaned_lines content).
Proof.
  intros I T M W N1 N2 O. unfold cleaned_lines.
  apply pop_trailing_keywords_keeps.
  - apply filter_In. split; [exact I|]. unfold keep_line. rewrite T. cbn [negb].
    destruct (existsb (fun p => test p (trim l)) METADATA_LINE_PATTERNS) eqn:E; [|reflexivity].
    apply existsb_exists in E as [p [Ip Tp]]. rewrite (M p Ip) in Tp. discriminate.
  - apply function_word_not_keyword.
    destruct (function_word_ends w W N1 N2) as [H1 H2].
    exact (function_word_test (trim l) w W H1 H2 O).
Qed.

Lemma function_word_line_kept_witness :
  In (u "Regeln nach Daten, Schutz, Recht")
     (cleaned_lines (u "Text." ++ [10%Z] ++ u "Regeln nach Daten, Schutz, Recht")).
Proof.
  apply (function_word_line_kept _ _ "nach"%string).
  - vm_compute. right. left. reflexivity.
  - vm_compute. reflexivity.
  - intros p I. unfold METADATA_LINE_PATTERNS in I.
    repeat (destruct I as [I|I]; [subst p; vm_compute; reflexivity|]). contradiction.
  - vm_compute. tauto.
  - discriminate.
  - discriminate.
  - exists (u "Regeln "), (u "nach"), (u " Daten, Schutz, Recht").
    split; [vm_compute; reflexivity|]. split; [reflexivity|]. split; vm_compute; reflexivity.
Defined.

(** C4 (counterexample): the trailing comma-delimited lines [Regeln über
    Daten, Schutz, Recht] and [Regeln gemäß Daten, Schutz, Recht] contain the
    guard words [über] and [gemäß], yet the guard misses them and they are
    removed as keyword lines; the line [Das Gesetz ist neu, BGBl. Nr. 5/2000]
    contains [ist] and is removed as an amendment line. *)
Lemma function_word_lines_removed :
  cleanProvisionContent (u "Text." ++ [10%Z] ++ u "Regeln über Daten, Schutz, Recht") = u "Text." /\
  cleanProvisionContent (u "Text." ++ [10%Z] ++ u "Regeln gemäß Daten, Schutz, Recht") = u "Text." /\
  cleanProvisionContent (u "Das Gesetz ist neu, BGBl. Nr. 5/2000") = [].
Proof. split; [|split]; vm_compute; reflexivity. Qed.

End KeywordFacts.

(* ------------------------------------------------------------------ *)
(** ** The content cleaner: shape of the cleaned text *)

Module CleanerFacts.

Import Cleaner RegexFacts.

Lemma line_scan_app b p q :
  line_scan b (p ++ q) = match line_scan b p with Some b' => line_scan b' q | None => None end.
Proof.
  revert b. induction p as [|c p IH]; intros b; simpl; [reflexivity|].
  destruct (c =? 10)%Z; [destruct b; [apply IH | reflexivity] | apply IH].
Qed.

Lemma line_scan_no_lf b l :
  ~ In 10%Z l -> line_scan b l = Some (b || existsb (fun c => negb (is_js_space c)) l).
Proof.
  revert b. induction l as [|c l IH]; intros b N; simpl; [rewrite orb_false_r; reflexivity|].
  destruct (c =? 10)%Z eqn:E.
  - apply Z.eqb_eq in E. subst. exfalso. apply N. left. reflexivity.
  - rewrite IH by (intros I; apply N; right; exact I). rewrite orb_assoc. reflexivity.
Qed.

Lemma lf_is_space : is_js_space 10 = true.
Proof. reflexivity. Qed.

Lemma space_not_lf c : is_js_space c = false -> (c =? 10)%Z = false.
Proof. intros H. apply Z.eqb_neq. intros E. subst. discriminate. Qed.

Lemma trim_start_spaces a r :
  Forall (fun c => is_js_space c = true) a -> trim_start (a ++ r) = trim_start r.
Proof. induction 1 as [|c a Hc _ IH]; simpl; [reflexivity|]. rewrite Hc. exact IH. Qed.

Lemma trim_start_decomp w :
  exists sp, w = sp ++ trim_start w /\ Forall (fun c => is_js_space c = true) sp /\
  (trim_start w = [] \/ exists d t, trim_start w = d :: t /\ is_js_space d = false).
Proof.
  induction w as [|c w IH]; simpl.
  - exists []. auto.
  - destruct (is_js_space c) eqn:S.
    + destruct IH as [sp [E [F R]]]. exists (c :: sp). split; [simpl; congruence|]. auto.
    + exists []. split; [reflexivity|]. split; [constructor|]. right. eauto.
Qed.

Lemma trim_end_decomp z :
  exists sp, z = trim_end z ++ sp /\ Forall (fun c => is_js_space c = true) sp /\
  (trim_end z = [] \/ exists p d, trim_end z = p ++ [d] /\ is_js_space d = false).
Proof.
  destruct (trim_start_decomp (rev z)) as [sp [E [F R]]].
  exists (rev sp). unfold trim_end. split.
  - rewrite <- (rev_involutive z) at 1. rewrite E at 1. rewrite rev_app_distr. reflexivity.
  - split; [apply Forall_rev; exact F|].
    destruct R as [R|[d [t [R D]]]]; rewrite R; [left; reflexivity|].
    right. exists (rev t), d. split; [reflexivity | exact D].
Qed.

Lemma trim_end_last p d : is_js_space d = false -> trim_end (p ++ [d]) = p ++ [d].
Proof.
  intros D. unfold trim_end. rewrite rev_app_distr. simpl. rewrite D. simpl.
  rewrite rev_involutive. reflexivity.
Qed.

Lemma trim_end_head d t : is_js_space d = false -> exists t', trim_end (d :: t) = d :: t'.
Proof.
  intros D. unfold trim_end. simpl.
  destruct (SectionFacts.trim_start_app_last (rev t) d D) as [l' E]. rewrite E.
  rewrite rev_app_distr. simpl. eauto.
Qed.

Lemma trim_end_idem z : trim_end (trim_end z) = trim_end z.
Proof.
  destruct (trim_end_decomp z) as [sp [_ [_ [R|[p [d [R D]]]]]]]; rewrite R;
    [reflexivity | apply trim_end_last; exact D].
Qed.

Lemma trim_idem w : trim (trim w) = trim w.
Proof.
  unfold trim.
  destruct (trim_start_decomp w) as [sp [_ [_ [R|[d [t [R D]]]]]]]; rewrite R; [reflexivity|].
  destruct (trim_end_head d t D) as [t' E]. rewrite E. simpl. rewrite D. rewrite <- E.
  apply trim_end_idem.
Qed.

(** A non-blank line has a non-blank trim. *)
Lemma nonblank_trim l :
  existsb (fun c => negb (is_js_space c)) l = true -> truthy (trim l) = true.
Proof.
  intros H. destruct (trim_start_decomp l) as [sp [E [F [R|[d [t [R D]]]]]]].
  - exfalso. rewrite R, app_nil_r in E. subst l.
    apply existsb_exists in H as [c [I N]]. rewrite Forall_forall in F.
    rewrite (F c I) in N. discriminate.
  - unfold trim. rewrite R. destruct (trim_end_head d t D) as [t' E2]. rewrite E2. reflexivity.
Qed.

Lemma trim_nonblank l :
  truthy (trim l) = true -> existsb (fun c => negb (is_js_space c)) l = true.
Proof.
  intros H. destruct (existsb _ l) eqn:E; [reflexivity|]. exfalso.
  assert (F : Forall (fun c => is_js_space c = true) l).
  { apply Forall_forall. intros c I. destruct (is_js_space c) eqn:S; [reflexivity|].
    assert (existsb (fun c => negb (is_js_space c)) l = true)
      by (apply existsb_exists; exists c; rewrite S; auto). congruence. }
  rewrite (ParserFacts.trim_all_space l F) in H. discriminate.
Qed.

Lemma split_on_cons_ex c s : exists w ws, split_on c s = w :: ws.
Proof.
  destruct s as [|x s]; simpl; [eauto|].
  destruct (x =? c)%Z; [eauto|]. destruct (split_on c s); eauto.
Qed.

Lemma split_on_no_sep s : forall l, In l (split_on 10 s) -> ~ In 10%Z l.
Proof.
  induction s as [|c s IH]; intros l I; simpl in I.
  - destruct I as [E|[]]. subst. auto.
  - destruct (c =? 10)%Z eqn:E.
    + destruct I as [E2|I]; [subst; auto | auto].
    + destruct (split_on 10 s) as [|w ws] eqn:S.
      * destruct (split_on_cons_ex 10 s) as [w [ws S2]]. congruence.
      * destruct I as [E2|I].
        -- subst l. intros [E3|I3]; [subst; rewrite Z.eqb_refl in E; discriminate|].
           apply (IH w); [left; reflexivity | exact I3].
        -- apply IH. right. exact I.
Qed.

Lemma join_split s : join [10%Z] (split_on 10 s) = s.
Proof.
  induction s as [|c s IH]; [reflexivity|].
  destruct (split_on_cons_ex 10 s) as [w [ws S]].
  cbn [split_on]. rewrite S. rewrite S in IH.
  destruct (c =? 10)%Z eqn:E.
  - apply Z.eqb_eq in E. subst c.
    change (join [10%Z] ([] :: w :: ws)) with (10%Z :: join [10%Z] (w :: ws)). rewrite IH. reflexivity.
  - destruct ws as [|w2 ws].
    + simpl in IH |- *. subst. reflexivity.
    + change (join [10%Z] ((c :: w) :: w2 :: ws)) with (c :: join [10%Z] (w :: w2 :: ws)).
      rewrite IH. reflexivity.
Qed.

Lemma line_scan_trim_start z :
  line_scan false z <> None -> line_scan false (trim_start z) = line_scan false z.
Proof.
  induction z as [|c z IH]; intros H; [reflexivity|]. simpl in H |- *.
  destruct (c =? 10)%Z eqn:E.
  - exfalso. apply H. reflexivity.
  - destruct (is_js_space c) eqn:S; simpl in H |- *; [|rewrite E, S; reflexivity].
    apply IH. exact H.
Qed.

Lemma line_scan_last b p d :
  is_js_space d = false -> line_scan b p <> None -> line_scan b (p ++ [d]) = Some true.
Proof.
  intros D H. rewrite line_scan_app. destruct (line_scan b p) as [b'|]; [|congruence].
  simpl. rewrite (space_not_lf d D), D, orb_true_r. reflexivity.
Qed.

Lemma line_scan_trim_end z :
  line_scan false z <> None -> trim_end z = [] \/ line_scan false (trim_end z) = Some true.
Proof.
  intros H. destruct (trim_end_decomp z) as [sp [E [_ [R|[p [d [R D]]]]]]]; [left; exact R|].
  right. rewrite R. apply line_scan_last; [exact D|].
  intros N. apply H. rewrite E, R, <- app_assoc, line_scan_app, N. reflexivity.
Qed.

Lemma line_scan_prefix b z i : line_scan b z <> None -> line_scan b (firstn i z) <> None.
Proof.
  intros H N. apply H. rewrite <- (firstn_skipn i z), line_scan_app, N. reflexivity.
Qed.

Lemma line_scan_no_double_lf z : forall b p,
  line_scan b z <> None -> nth_error z p = Some 10%Z -> nth_error z (S p) = Some 10%Z -> False.
Proof.
  induction z as [|c z IH]; intros b p H N1 N2; [destruct p; discriminate|].
  simpl in H. destruct p as [|p].
  - simpl in N1, N2. inversion N1; subst c.
    destruct z as [|c' z]; [discriminate|]. simpl in N2. inversion N2; subst c'.
    destruct b; cbn in H; apply H; reflexivity.
  - simpl in N1, N2. destruct (c =? 10)%Z; [destruct b; [eapply IH; eauto | apply H; reflexivity]|].
    eapply IH; eauto.
Qed.

(** [/\n{3,}/g] has nothing to replace in a text without blank lines. *)
Lemma collapse_id z : line_scan false z <> None -> replace_all BLANK_RUN z [10; 10]%Z = z.
Proof.
  intros H.
  assert (S : search_from z BLANK_RUN 0 (S (List.length z - 0)) = None).
  { destruct (search_from z BLANK_RUN 0 _) as [[p st]|] eqn:E; [|reflexivity]. exfalso.
    apply search_from_sound in E as [M _]. apply match_at_sound in M.
    change BLANK_RUN with (RSeq (RSeq (chr 10) (RSeq (chr 10) (RSeq (chr 10) REmpty)))
                                (star (chr 10))) in M.
    apply Rel_seq_inv in M as [st1 [M _]].
    apply Rel_seq_inv in M as [st2 [C1 M]]. apply Rel_char_inv in C1 as [c1 [N1 [P1 E1]]].
    apply Rel_seq_inv in M as [st3 [C2 _]]. apply Rel_char_inv in C2 as [c2 [N2 [P2 _]]].
    subst st2. simpl in N1, N2. apply Z.eqb_eq in P1. apply Z.eqb_eq in P2. subst.
    exact (line_scan_no_double_lf z false p H N1 N2). }
  unfold replace_all. cbn [replace_all_from]. rewrite S. reflexivity.
Qed.

(** [TRAILING_SECTION_REF] ends in [$]: the replacement cuts a suffix. *)
Lemma trailing_cut z :
  replace_first TRAILING_SECTION_REF z [] = z \/
  exists i, replace_first TRAILING_SECTION_REF z [] = firstn i z.
Proof.
  unfold replace_first. destruct (search z TRAILING_SECTION_REF) as [[i [e caps]]|] eqn:E; [|left; reflexivity].
  right. exists i. apply search_sound in E.
  change TRAILING_SECTION_REF with
    (RSeq (plus ws) (RSeq (alt_of [seq_of [lit (u "§"); star ws; plus digit; star wordc];
                                   seq_of [lit (u "Artikel"); star ws; plus digit; star wordc]])
                          (RSeq (opt (chr 46)) (RSeq (star ws) REol)))) in E.
  apply Rel_seq_inv in E as [s1 [_ E]]. apply Rel_seq_inv in E as [s2 [_ E]].
  apply Rel_seq_inv in E as [s3 [_ E]]. apply Rel_seq_inv in E as [s4 [_ E]].
  apply Rel_eol_inv in E as [L Es]. subst s4. simpl in L. subst e.
  rewrite skipn_all, !app_nil_r. reflexivity.
Qed.

Lemma pop_keywords_rev_incl l : forall rl, In l (pop_keywords_rev rl) -> In l rl.
Proof.
  induction rl as [|x rl IH]; simpl; [auto|].
  destruct (isKeywordLine (trim x)); [intros I; right; auto | auto].
Qed.

Lemma cleaned_lines_good content l :
  In l (cleaned_lines content) -> ~ In 10%Z l /\ existsb (fun c => negb (is_js_space c)) l = true.
Proof.
  unfold cleaned_lines, pop_trailing_keywords. intros I.
  apply in_rev in I. apply pop_keywords_rev_incl in I. apply in_rev in I.
  apply filter_In in I as [I K]. split; [exact (split_on_no_sep _ _ I)|].
  apply trim_nonblank. unfold keep_line in K. destruct (truthy (trim l)); [reflexivity | discriminate].
Qed.

Lemma line_scan_join L :
  L <> [] -> (forall l, In l L -> ~ In 10%Z l /\ existsb (fun c => negb (is_js_space c)) l = true) ->
  line_scan false (join [10%Z] L) = Some true.
Proof.
  induction L as [|l L IH]; intros NE H; [congruence|].
  destruct (H l (or_introl eq_refl)) as [N X].
  destruct L as [|l2 L].
  - simpl. rewrite (line_scan_no_lf false l N), X. reflexivity.
  - change (join [10%Z] (l :: l2 :: L)) with (l ++ [10%Z] ++ join [10%Z] (l2 :: L)).
    rewrite line_scan_app, (line_scan_no_lf false l N), X. simpl.
    apply IH; [discriminate | intros l' I; apply H; right; exact I].
Qed.

(** The cleaned text is empty or has no blank line. *)
Lemma clean_shape x :
  cleanProvisionContent x = [] \/ line_scan false (cleanProvisionContent x) = Some true.
Proof.
  unfold cleanProvisionContent.
  destruct (cleaned_lines x) as [|l L] eqn:CL; [left; vm_compute; reflexivity|].
  assert (G0 : line_scan false (join [10%Z] (l :: L)) = Some true).
  { apply line_scan_join; [discriminate|]. intros l' I. rewrite <- CL in I.
    apply (cleaned_lines_good x l' I). }
  set (z0 := join [10%Z] (l :: L)) in *.
  assert (G1 : line_scan false (trim z0) <> None).
  { unfold trim. destruct (line_scan_trim_end (trim_start z0)) as [E|E].
    - rewrite line_scan_trim_start; congruence.
    - rewrite E. discriminate.
    - rewrite E. discriminate. }
  assert (G2 : line_scan false (replace_first TRAILING_SECTION_REF (trim z0) []) <> None).
  { destruct (trailing_cut (trim z0)) as [E|[i E]]; rewrite E; [exact G1|].
    apply line_scan_prefix. exact G1. }
  rewrite (collapse_id _ G2).
  set (z2 := replace_first TRAILING_SECTION_REF (trim z0) []) in *.
  unfold trim at 1. rewrite <- (line_scan_trim_start z2 G2) in G2.
  destruct (line_scan_trim_end (trim_start z2) G2) as [E|E]; [left | right]; exact E.
Qed.

Lemma line_scan_lines s : forall b,
  line_scan b s = Some true ->
  match split_on 10 s with
  | [] => False
  | w :: ws => (b || existsb (fun c => negb (is_js_space c)) w) = true /\
               Forall (fun l => existsb (fun c => negb (is_js_space c)) l = true) ws
  end.
Proof.
  induction s as [|c s IH]; intros b H.
  - simpl in H |- *. inversion H; subst. auto.
  - simpl in H. destruct (split_on_cons_ex 10 s) as [w [ws S]].
    cbn [split_on]. rewrite S. destruct (c =? 10)%Z eqn:E.
    + destruct b; [|discriminate]. split; [reflexivity|].
      specialize (IH false H). rewrite S in IH. destruct IH as [IH1 IH2]. constructor; auto.
    + specialize (IH _ H). rewrite S in IH. destruct IH as [IH1 IH2].
      split; [|exact IH2]. simpl. rewrite orb_assoc. exact IH1.
Qed.

Lemma line_scan_all_nonblank s :
  line_scan false s = Some true -> Forall (fun l => truthy (trim l) = true) (split_on 10 s).
Proof.
  intros H. apply line_scan_lines in H.
  destruct (split_on 10 s) as [|w ws]; [contradiction|]. destruct H as [H1 H2].
  constructor; [apply nonblank_trim; exact H1|].
  eapply Forall_impl; [|exact H2]. intros l. apply nonblank_trim.
Qed.

Lemma pop_trailing_keywords_id L :
  L <> [] -> isKeywordLine (trim (last L [])) = false -> pop_trailing_keywords L = L.
Proof.
  intros NE K. unfold pop_trailing_keywords.
  rewrite (app_removelast_last [] NE). rewrite rev_app_distr. simpl. rewrite K. simpl.
  rewrite rev_involutive. reflexivity.
Qed.

Lemma filter_all {A} (f : A -> bool) l : Forall (fun x => f x = true) l -> filter f l = l.
Proof. induction 1 as [|x l Hx _ IH]; simpl; [reflexivity|]. rewrite Hx, IH. reflexivity. Qed.

(** C2 (amended): cleaning is idempotent on the texts it produces, except
    when the cleaned text still offers the cleaner something to remove: a
    line (trimmed) matching a metadata pattern, a last line that is a
    keyword line, or a trailing section reference. *)
Theorem clean_idempotent_when (x : jsstr) :
  (forall l, In l (split_on 10 (cleanProvisionContent x)) ->
   forall p, In p METADATA_LINE_PATTERNS -> test p (trim l) = false) ->
  isKeywordLine (trim (last (split_on 10 (cleanProvisionContent x)) [])) = false ->
  test TRAILING_SECTION_REF (cleanProvisionContent x) = false ->
  cleanProvisionContent (cleanProvisionContent x) = cleanProvisionContent x.
Proof.
  intros M K T.
  assert (Ty : trim (cleanProvisionContent x) = cleanProvisionContent x)
    by (unfold cleanProvisionContent; cbv zeta; apply trim_idem).
  destruct (clean_shape x) as [E|G].
  { rewrite E. vm_compute. reflexivity. }
  remember (cleanProvisionContent x) as y eqn:Ey.
  unfold cleanProvisionContent at 1.
  assert (Lines : cleaned_lines y = split_on 10 y).
  { unfold cleaned_lines. rewrite filter_all.
    - apply pop_trailing_keywords_id; [|exact K].
      destruct (split_on_cons_ex 10 y) as [w [ws S]]. rewrite S. discriminate.
    - apply line_scan_all_nonblank in G. rewrite Forall_forall in G |- *.
      intros l I. unfold keep_line. rewrite (G l I). cbn [negb].
      destruct (existsb (fun p => test p (trim l)) METADATA_LINE_PATTERNS) eqn:Ex; [|reflexivity].
      apply existsb_exists in Ex as [p [Ip Tp]]. rewrite (M l I p Ip) in Tp. discriminate. }
  rewrite Lines, join_split, Ty.
  assert (R : replace_first TRAILING_SECTION_REF y [] = y).
  { unfold replace_first. unfold test in T.
    destruct (search y TRAILING_SECTION_REF) as [[i st]|]; [discriminate | reflexivity]. }
  rewrite R, collapse_id by congruence. exact Ty.
Qed.

Lemma clean_idempotent_when_witness :
  cleanProvisionContent (cleanProvisionContent (u "Text ist da. § 1.")) =
  cleanProvisionContent (u "Text ist da. § 1.").
Proof.
  apply clean_idempotent_when.
  - intros l I p Ip. vm_compute in I. destruct I as [I|[]]. subst l.
    unfold METADATA_LINE_PATTERNS in Ip.
    repeat (destruct Ip as [Ip|Ip]; [subst p; vm_compute; reflexivity|]). contradiction.
  - vm_compute. reflexivity.
  - vm_compute. reflexivity.
Defined.

(** C2 (counterexample): cleaning [Text ist da. § 1. § 2.] removes the
    trailing [§ 2.] only; cleaning the result removes [§ 1.] as well. *)
Lemma clean_not_idempotent :
  cleanProvisionContent (u "Text ist da. § 1. § 2.") = u "Text ist da. § 1." /\
  cleanProvisionContent (u "Text ist da. § 1.") = u "Text ist da.".
Proof. split; vm_compute; reflexivity. Qed.

End CleanerFacts.

(* ------------------------------------------------------------------ *)
(** ** Title and year *)

Module YearFacts.

Import Parser RegexFacts.

Section Subject.

Variable s : jsstr.

Lemma m_char_eq P k st :
  m s (RChar P) k st =
  match nth_error s (fst st) with Some a => if P a then k (S (fst st), snd st) else None | None => None end.
Proof. reflexivity. Qed.

Lemma m_seq_sound r1 r2 k st x :
  m s (RSeq r1 r2) k st = Some x -> exists st1, Rel s r1 st st1 /\ m s r2 k st1 = Some x.
Proof. intros H. exact (m_sound s r1 (fun st1 => m s r2 k st1) st x H). Qed.

Lemma Rel_char_skip P st st' :
  Rel s (RChar P) st st' ->
  exists x, skipn (fst st) s = x :: skipn (S (fst st)) s /\ P x = true /\ st' = (S (fst st), snd st).
Proof.
  intros R. apply Rel_char_inv in R as [x [N [Px E]]].
  exists x. split; [apply nth_error_skipn_cons; exact N | auto].
Qed.

Lemma Rel_star_char_skip g P st st' :
  Rel s (RStar g (RChar P)) st st' ->
  snd st' = snd st /\ exists X, skipn (fst st) s = X ++ skipn (fst st') s /\ Forall (fun x => P x = true) X.
Proof.
  intros R. remember (RStar g (RChar P)) as r eqn:Er. revert Er.
  induction R; intros Er; try discriminate.
  - split; [reflexivity|]. exists []. split; [reflexivity | constructor].
  - inversion Er; subst. destruct (IHR2 eq_refl) as [Ec [X [E F]]].
    apply Rel_char_skip in R1 as [x [Ex [Px Est]]]. subst st1. simpl in *.
    split; [exact Ec|]. exists (x :: X). split; [rewrite Ex, E; reflexivity | constructor; auto].
Qed.

Lemma Rel_rep_char_skip n P : forall st st',
  Rel s (rep n (RChar P)) st st' ->
  snd st' = snd st /\ exists X, List.length X = n /\ skipn (fst st) s = X ++ skipn (fst st') s /\
                              Forall (fun x => P x = true) X.
Proof.
  induction n as [|n IH]; intros st st' R; simpl in R.
  - apply Rel_empty_inv in R. subst. split; [reflexivity|]. exists []. split; [reflexivity|]. auto.
  - apply Rel_seq_inv in R as [st1 [R1 R2]]. apply Rel_char_skip in R1 as [x [Ex [Px Est]]]. subst st1.
    destruct (IH _ _ R2) as [Ec [X [L [E F]]]]. simpl in *.
    split; [exact Ec|]. exists (x :: X). split; [simpl; congruence|].
    split; [rewrite Ex, E; reflexivity | constructor; auto].
Qed.

Lemma skipn_cons_next p x rest : skipn p s = x :: rest -> skipn (S p) s = rest.
Proof.
  revert s. induction p as [|p IH]; intros l E; destruct l as [|y l]; simpl in *; try discriminate.
  - inversion E; reflexivity.
  - apply IH. exact E.
Qed.

Lemma skipn_cons_nth p x rest : skipn p s = x :: rest -> nth_error s p = Some x.
Proof.
  revert s. induction p as [|p IH]; intros l E; destruct l as [|y l]; simpl in *; try discriminate.
  - inversion E; reflexivity.
  - apply IH. exact E.
Qed.

Lemma Rel_star_char_build g P X : forall p c B,
  skipn p s = X ++ B -> Forall (fun x => P x = true) X ->
  Rel s (RStar g (RChar P)) (p, c) (p + List.length X, c).
Proof.
  induction X as [|x X IH]; intros p c B E F.
  - rewrite Nat.add_0_r. apply RelStarNil.
  - inversion F as [|? ? Px FX]; subst.
    apply RelStarCons with (S p, c).
    + apply (RelChar s P (p, c) x); [apply (skipn_cons_nth p x (X ++ B)); exact E | exact Px].
    + simpl. lia.
    + replace (p + List.length (x :: X)) with (S p + List.length X) by (simpl; lia).
      apply (IH (S p) c B); [apply (skipn_cons_next p x); exact E | exact FX].
Qed.

Lemma Rel_rep_char_build P X : forall p c B,
  skipn p s = X ++ B -> Forall (fun x => P x = true) X ->
  Rel s (rep (List.length X) (RChar P)) (p, c) (p + List.length X, c).
Proof.
  induction X as [|x X IH]; intros p c B E F.
  - rewrite Nat.add_0_r. constructor.
  - inversion F as [|? ? Px FX]; subst. simpl.
    apply RelSeq with (S p, c).
    + apply (RelChar s P (p, c) x); [apply (skipn_cons_nth p x (X ++ B)); exact E | exact Px].
    + replace (p + S (List.length X)) with (S p + List.length X) by lia.
      apply (IH (S p) c B); [apply (skipn_cons_next p x); exact E | exact FX].
Qed.

(** A lazy [P*?] returns the first end position where the continuation
    succeeds. *)
Lemma lazy_first P k : forall fuel st x,
  star_loop (m s (RChar P)) false k fuel st = Some x ->
  exists e, fst st <= e /\ k (e, snd st) = Some x /\
            forall e', fst st <= e' < e -> k (e', snd st) = None.
Proof.
  induction fuel as [|f IH]; intros [p c] x H; [discriminate|].
  cbn [star_loop] in H. simpl fst in H.
  destruct (k (p, c)) as [y|] eqn:K.
  - inversion H; subst. exists p. simpl. split; [lia|]. split; [exact K|]. intros e' L; simpl in L; lia.
  - rewrite m_char_eq in H. simpl fst in H. simpl snd in H.
    destruct (nth_error s p) as [a|]; [|discriminate].
    destruct (P a); [|discriminate].
    simpl fst in H. replace (p <? S p) with true in H by (symmetry; apply Nat.ltb_lt; lia).
    apply IH in H as [e [Le [Ke Fe]]]. simpl in Le, Ke, Fe.
    exists e. simpl. split; [lia|]. split; [exact Ke|].
    intros e' Le'. destruct (Nat.eq_dec e' p); [subst; exact K | apply Fe; lia].
Qed.

Lemma group_lazy_first n P r2 k p c x :
  m s (RSeq (RGroup n (RSeq (RChar P) (RStar false (RChar P)))) r2) k (p, c) = Some x ->
  exists e, p < e /\ m s r2 k (e, (n, (p, e)) :: c) = Some x /\
            forall e', p < e' < e -> m s r2 k (e', (n, (p, e')) :: c) = None.
Proof.
  intros H.
  change (m s (RChar P)
            (fun st1 => star_loop (m s (RChar P)) false
                          (fun st2 => m s r2 k (fst st2, (n, (p, fst st2)) :: snd st2))
                          (S (List.length s - fst st1)) st1) (p, c) = Some x) in H.
  rewrite m_char_eq in H. simpl fst in H. simpl snd in H.
  destruct (nth_error s p) as [a|]; [|discriminate]. destruct (P a); [|discriminate].
  apply lazy_first in H as [e [Le [Ke Fe]]]. simpl in Le, Ke, Fe.
  exists e. split; [lia|]. split; [exact Ke|]. intros e' L. apply (Fe e'). lia.
Qed.


Lemma skipn_all_len : skipn (List.length s) s = [].
Proof. apply skipn_all. Qed.

Lemma skipn_app_len (A B : jsstr) n : skipn n s = A ++ B -> skipn (n + List.length A) s = B.
Proof.
  intros E. rewrite Nat.add_comm, <- skipn_skipn, E.
  clear E. induction A as [|a A IH]; simpl; [reflexivity | exact IH].
Qed.

Lemma plus_ws_skip st st' :
  Rel s (plus ws) st st' ->
  snd st' = snd st /\ exists X, X <> [] /\ skipn (fst st) s = X ++ skipn (fst st') s /\
                              Forall (fun x => is_js_space x = true) X.
Proof.
  intros R. apply Rel_seq_inv in R as [st1 [R1 R2]].
  apply Rel_char_skip in R1 as [x [Ex [Px Est]]]. subst st1.
  apply Rel_star_char_skip in R2 as [Ec [X [E F]]]. simpl in *.
  split; [exact Ec|]. exists (x :: X). split; [discriminate|].
  split; [rewrite Ex, E; reflexivity | constructor; auto].
Qed.

Lemma plus_ws_build X B p c :
  skipn p s = X ++ B -> X <> [] -> Forall (fun x => is_js_space x = true) X ->
  Rel s (plus ws) (p, c) (p + List.length X, c).
Proof.
  intros E NE F. destruct X as [|x X]; [contradiction|].
  inversion F as [|? ? Px FX]; subst.
  apply RelSeq with (S p, c).
  - apply (RelChar s is_js_space (p, c) x); [apply (skipn_cons_nth p x (X ++ B)); exact E | exact Px].
  - replace (p + List.length (x :: X)) with (S p + List.length X) by (simpl; lia).
    apply (Rel_star_char_build true is_js_space X (S p) c B); [apply (skipn_cons_next p x); exact E | exact FX].
Qed.

Lemma group_rep_skip n k P st st' :
  Rel s (RGroup n (rep k (RChar P))) st st' ->
  exists q D, st' = (q, (n, (fst st, q)) :: snd st) /\ List.length D = k /\
              skipn (fst st) s = D ++ skipn q s /\ Forall (fun x => P x = true) D.
Proof.
  intros R. apply Rel_group_inv in R as [st1 [R1 E]].
  apply Rel_rep_char_skip in R1 as [Ec [D [L [Es F]]]].
  exists (fst st1), D. rewrite E, Ec. auto.
Qed.

Lemma group_rep_build n P D B p c :
  skipn p s = D ++ B -> Forall (fun x => P x = true) D ->
  Rel s (RGroup n (rep (List.length D) (RChar P))) (p, c)
        (p + List.length D, (n, (p, p + List.length D)) :: c).
Proof.
  intros E F. apply (RelGroup s n _ (p, c) (p + List.length D, c)).
  apply (Rel_rep_char_build P D p c B E F).
Qed.

(** A match of [\s+(\d{4})$] starting at [i]. *)
Lemma year_suffix_skip i st :
  Rel s YEAR_SUFFIX (i, []) st ->
  exists X j D, skipn i s = X ++ D /\ X <> [] /\ Forall (fun x => is_js_space x = true) X /\
                List.length D = 4 /\ skipn j s = D /\
                st = (List.length s, [(1, (j, List.length s))]).
Proof.
  unfold YEAR_SUFFIX. cbn [seq_of]. intros R.
  apply Rel_seq_inv in R as [st1 [R1 R2]]. apply plus_ws_skip in R1 as [C1 [X [NX [E1 F1]]]].
  apply Rel_seq_inv in R2 as [st2 [R2 R3]]. apply group_rep_skip in R2 as [q [D [E2 [L [E3 _]]]]].
  apply Rel_eol_inv in R3 as [Q E4]. subst st2. simpl in Q, C1. subst q. subst st.
  rewrite skipn_all_len, app_nil_r in E3. simpl in E1.
  exists X, (fst st1), D. rewrite E1, E3, C1.
  repeat split; auto.
Qed.
End Subject.


Lemma skipn_prefix (A B : jsstr) : skipn (List.length A) (A ++ B) = B.
Proof. induction A as [|a A IH]; simpl; [reflexivity | exact IH]. Qed.

Lemma app_eq_tail_len (A B C D : jsstr) :
  A ++ B = C ++ D -> List.length B = List.length D -> A = C /\ B = D.
Proof.
  revert C. induction A as [|a A IH]; intros [|c C] E L; simpl in *.
  - auto.
  - exfalso. subst B. simpl in L. rewrite length_app in L. lia.
  - exfalso. subst D. simpl in L. rewrite length_app in L. lia.
  - inversion E as [[Ea E']]. subst c. destruct (IH C E' L) as [-> ->]. auto.
Qed.

Lemma skipn_nonempty_lt (l : jsstr) i : skipn i l <> [] -> i < List.length l.
Proof.
  intros N. destruct (Nat.lt_ge_cases i (List.length l)) as [H|H]; [exact H|].
  exfalso. apply N. apply skipn_all2. exact H.
Qed.

Lemma trim_end_app_spaces X sp :
  Forall (fun c => is_js_space c = true) sp -> trim_end (X ++ sp) = trim_end X.
Proof.
  intros F. unfold trim_end. rewrite rev_app_distr.
  rewrite CleanerFacts.trim_start_spaces by (apply Forall_rev; exact F). reflexivity.
Qed.

(** Trailing white space does not change [trim]. *)
Lemma trim_app_spaces A sp :
  Forall (fun c => is_js_space c = true) sp -> trim (A ++ sp) = trim A.
Proof.
  intros F. unfold trim.
  destruct (CleanerFacts.trim_start_decomp A) as [sp0 [E [F0 [R|[d [t [R D]]]]]]];
    rewrite E at 1; rewrite <- app_assoc, CleanerFacts.trim_start_spaces by exact F0; rewrite R.
  - simpl. rewrite <- (app_nil_r sp), CleanerFacts.trim_start_spaces by exact F. reflexivity.
  - simpl. rewrite D. change (d :: t ++ sp) with ((d :: t) ++ sp).
    apply trim_end_app_spaces. exact F.
Qed.

(** [splitYear] on a title whose trimmed text ends in white space and four
    ASCII digits. *)
Lemma splitYear_bare_year t P sp D :
  trim t = P ++ sp ++ D -> sp <> [] -> Forall (fun c => is_js_space c = true) sp ->
  List.length D = 4 -> Forall (fun c => is_digit c = true) D ->
  splitYear t = (trim P, Some (parseInt10 D)).
Proof.
  intros E NE Fsp L FD. unfold splitYear. cbv zeta. rewrite E.
  set (s := P ++ sp ++ D).
  assert (S0 : skipn (List.length P) s = sp ++ D) by apply skipn_prefix.
  assert (Len : List.length s = List.length P + List.length sp + List.length D)
    by (unfold s; rewrite !length_app; lia).
  assert (R : Rel s YEAR_SUFFIX (List.length P, [])
                (List.length s, [(1, (List.length P + List.length sp, List.length s))])).
  { unfold YEAR_SUFFIX. cbn [seq_of].
    apply RelSeq with (List.length P + List.length sp, []).
    - apply (plus_ws_build s sp D); assumption.
    - apply RelSeq with (List.length s, [(1, (List.length P + List.length sp, List.length s))]).
      + rewrite <- L. rewrite Len.
        apply (group_rep_build s 1 is_digit D [] (List.length P + List.length sp) []);
          [rewrite app_nil_r; apply (skipn_app_len s sp D); exact S0 | exact FD].
      + apply RelEol. reflexivity. }
  destruct (search_complete s YEAR_SUFFIX (List.length P) _ ltac:(lia) R) as [i [st Hs]].
  rewrite Hs. apply search_sound in Hs.
  apply year_suffix_skip in Hs as [X [j [D' [E1 [NX [FX [L' [E2 ->]]]]]]]].
  unfold group. simpl lookup_cap. cbv iota beta.
  assert (Sub : substring s j (List.length s) = D').
  { unfold substring. rewrite E2. rewrite <- (length_skipn j s), E2. apply firstn_all. }
  rewrite Sub.
  assert (Split : s = firstn i s ++ X ++ D') by (rewrite <- E1; symmetry; apply firstn_skipn).
  assert (Hi : i < List.length s) by (apply skipn_nonempty_lt; rewrite E1; destruct X; [contradiction | discriminate]).
  destruct (app_eq_tail_len (firstn i s ++ X) D' (P ++ sp) D) as [E3 ->].
  { rewrite <- !app_assoc, <- Split. reflexivity. }
  { congruence. }
  destruct D as [|d D]; [discriminate|]. unfold truthy.
  simpl fst. replace (List.length s - (List.length s - i)) with i by lia.
  f_equal. rewrite <- (trim_app_spaces (firstn i s) X FX), E3. apply trim_app_spaces. exact Fsp.
Qed.

Lemma range_In a n x : (a <= x < a + Z.of_nat n)%Z -> In x (range a n).
Proof.
  revert a. induction n as [|n IH]; intros a H; simpl; [lia|].
  destruct (Z.eq_dec a x) as [->|N]; [left; reflexivity|]. right. apply IH. lia.
Qed.

(** An ASCII digit is matched by [[\d]] under the [i] flag. *)
Lemma digit_i_complete c :
  is_digit c = true ->
  existsb (fun x => (canonicalize x =? canonicalize c)%Z) (range 48 10) = true.
Proof.
  intros H. apply existsb_exists. exists c. split; [|apply Z.eqb_refl].
  unfold is_digit in H. apply andb_true_iff in H as [H1 H2].
  apply Z.leb_le in H1. apply Z.leb_le in H2. apply range_In. simpl. lia.
Qed.

Section Legacy.

Variable s : jsstr.

Lemma legacy_tail_skip e c st :
  Rel s legacy_tail (e, c) st ->
  (e = List.length s /\ st = (e, c)) \/
  (exists X j D, skipn e s = X ++ D /\ X <> [] /\ Forall (fun x => is_js_space x = true) X /\
                 List.length D = 4 /\ skipn j s = D /\
                 st = (List.length s, (3, (j, List.length s)) :: c)).
Proof.
  unfold legacy_tail. intros R. apply Rel_seq_inv in R as [st1 [R1 R2]].
  apply Rel_eol_inv in R2 as [Q ->].
  apply Rel_alt_inv in R1 as [R1|R1].
  - right. apply Rel_seq_inv in R1 as [st2 [R3 R4]].
    apply plus_ws_skip in R3 as [C2 [X [NX [E1 F1]]]].
    apply group_rep_skip in R4 as [q [D [E2 [L [E3 _]]]]]. subst st1. simpl in Q, C2, E1. subst q.
    rewrite skipn_all_len, app_nil_r in E3.
    exists X, (fst st2), D. rewrite E1, E3, C2. repeat split; auto.
  - left. apply Rel_empty_inv in R1. subst st1. simpl in Q. auto.
Qed.

Lemma legacy_tail_build r c sp D :
  skipn r s = sp ++ D -> sp <> [] -> Forall (fun x => is_js_space x = true) sp ->
  List.length D = 4 -> Forall (fun x => is_digit x = true) D ->
  Rel s legacy_tail (r, c) (List.length s, (3, (r + List.length sp, List.length s)) :: c).
Proof.
  intros E NE Fsp L FD.
  assert (Hr : r < List.length s)
    by (apply skipn_nonempty_lt; rewrite E; destruct sp; [contradiction | discriminate]).
  assert (Len : List.length s = r + List.length sp + 4).
  { pose proof (length_skipn r s) as H. rewrite E, length_app in H. lia. }
  unfold legacy_tail. apply RelSeq with (List.length s, (3, (r + List.length sp, List.length s)) :: c).
  - apply RelAltL. apply RelSeq with (r + List.length sp, c).
    + apply (plus_ws_build s sp D); assumption.
    + rewrite Len, <- L.
      replace (r + List.length sp + List.length D) with (r + List.length sp + List.length D) by lia.
      apply (group_rep_build s 3 _ D []); [rewrite app_nil_r; apply (skipn_app_len s sp D); exact E|].
      rewrite Forall_forall in FD |- *. intros x I. apply digit_i_complete. apply FD. exact I.
  - apply RelEol. reflexivity.
Qed.


Lemma legacy_tail_none e c :
  List.length s <> e ->
  (forall X D, skipn e s = X ++ D -> List.length D = 4 ->
               Forall (fun x => is_js_space x = true) X -> False) ->
  m s legacy_tail (fun st => Some st) (e, c) = None.
Proof.
  intros NL NX. destruct (m s legacy_tail (fun st => Some st) (e, c)) as [y|] eqn:M; [|reflexivity].
  exfalso. apply m_sound in M as [y' [R K]]. inversion K; subst y'.
  apply legacy_tail_skip in R as [[E _]|[X [j [D [E1 [_ [FX [L _]]]]]]]]; [lia|].
  exact (NX X D E1 L FX).
Qed.

(** The legacy English form [/^(?:Section|s\.?)\s+(SEC)\s*,?\s+(.+?)(?:\s+(\d{4}))?$/i]:
    when the text from the start [q] of the title group on is [T0], white
    space and four ASCII digits, with [T0] ending in a non-space unit, the
    lazy title group stops at the end of [T0] and the digits are the year. *)
Lemma legacy_bare_year i st q e T0 sp D :
  search s LEGACY_ENGLISH = Some (i, st) ->
  lookup_cap 2 (snd st) = Some (q, e) ->
  skipn q s = T0 ++ sp ++ D ->
  (exists T1 d, T0 = T1 ++ [d] /\ is_js_space d = false) ->
  sp <> [] -> Forall (fun c => is_js_space c = true) sp ->
  List.length D = 4 -> Forall (fun c => is_digit c = true) D ->
  exists p, legacy_form s = Some p /\ title p = Some (trim T0) /\ year p = Some (parseInt10 D).
Proof.
  intros Hs Hc Eq [T1 [d [-> Hd]]] NE Fsp L FD.
  (* the section group is defined and starts with a digit *)
  assert (G1 : exists g1, group s st 1 = Some g1 /\ truthy g1 = true).
  { pose proof (cap_defined s _ _ _ 1 (search_sound s _ _ _ Hs) eq_refl) as N.
    unfold group. destruct (lookup_cap 1 (snd st)) as [[a b]|] eqn:L1; [|contradiction].
    eexists; split; [reflexivity|].
    destruct (SectionFacts.group_digit_head s LEGACY_ENGLISH i st 1 (substring s a b) Hs)
      as [d0 [t0 [-> _]]]; [unfold group; rewrite L1; reflexivity | intros body I; group_body I | reflexivity]. }
  destruct G1 as [g1 [G1 T1']].
  pose proof Hs as M. unfold search in M. apply search_from_sound in M as [M _].
  unfold match_at, LEGACY_ENGLISH in M. cbn [seq_of] in M.
  do 7 (apply m_seq_sound in M as [? [_ M]]).
  match type of M with m _ _ _ ?st7 = _ => destruct st7 as [p7 c7] end.
  apply group_lazy_first in M as [e0 [Lt0 [M0 First]]].
  fold legacy_tail in M0, First.
  (* the final state records the title group as [(p7, e0)] *)
  pose proof M0 as R0. apply m_sound in R0 as [st' [R0 K]]. inversion K; subst st'.
  assert (Hc0 : lookup_cap 2 (snd st) = Some (p7, e0)).
  { apply legacy_tail_skip in R0 as [[_ ->]|[X [j [D' [_ [_ [_ [_ [_ ->]]]]]]]]]; reflexivity. }
  rewrite Hc in Hc0. inversion Hc0; subst p7 e0. clear Hc0.
  set (r := q + List.length (T1 ++ [d])).
  assert (Sr : skipn r s = sp ++ D) by (apply (skipn_app_len s); exact Eq).
  assert (Hr : r < List.length s)
    by (apply skipn_nonempty_lt; rewrite Sr; destruct sp; [contradiction | discriminate]).
  (* the tail succeeds at the end of [T0] *)
  assert (Ok : m s legacy_tail (fun st => Some st) (r, (2, (q, r)) :: c7) <> None).
  { destruct (m_complete s legacy_tail _ _ (fun st => Some st) _
                (legacy_tail_build r ((2, (q, r)) :: c7) sp D Sr NE Fsp L FD) eq_refl) as [y Y].
    rewrite Y. discriminate. }
  (* and fails strictly inside the title *)
  assert (Ko : forall e', q < e' < r -> m s legacy_tail (fun st => Some st) (e', (2, (q, e')) :: c7) = None).
  { intros e' Le. apply legacy_tail_none; [lia|]. intros X D' E' L' FX.
    assert (Sk : skipn e' s = skipn (e' - q) T1 ++ [d] ++ sp ++ D).
    { rewrite <- (Nat.sub_add q e') at 1 by lia. rewrite <- skipn_skipn, Eq, <- app_assoc, skipn_app.
      unfold r in Le. rewrite length_app in Le. simpl in Le.
      replace (e' - q - List.length T1) with 0 by lia. reflexivity. }
    rewrite E' in Sk.
    destruct (app_eq_tail_len X D' (skipn (e' - q) T1 ++ [d] ++ sp) D) as [EX _];
      [rewrite Sk, <- !app_assoc; reflexivity | congruence |].
    rewrite EX in FX. apply Forall_app in FX as [_ FX]. inversion FX; congruence. }
  assert (Ee : e = r).
  { destruct (Nat.lt_total e r) as [Lt|[Eq'|Gt]]; [| exact Eq' |].
    - exfalso. rewrite (Ko e ltac:(lia)) in M0. discriminate.
    - exfalso. apply Ok. apply First. split; [unfold r; rewrite length_app; simpl; lia | exact Gt]. }
  subst e.
  apply legacy_tail_skip in R0 as [[E _]|[X [j [D' [E1 [_ [_ [L' [E2 ->]]]]]]]]]; [lia|].
  rewrite Sr in E1.
  destruct (app_eq_tail_len sp D X D') as [_ <-]; [exact E1 | congruence |].
  assert (G2 : substring s q r = T1 ++ [d]).
  { unfold substring, r. rewrite Eq. replace (q + List.length (T1 ++ [d]) - q) with (List.length (T1 ++ [d])) by lia.
    rewrite firstn_app, Nat.sub_diag, firstn_all. simpl. apply app_nil_r. }
  assert (G3 : substring s j (List.length s) = D).
  { unfold substring. rewrite <- (length_skipn j s), E2. apply firstn_all. }
  unfold legacy_form. rewrite Hs, G1. unfold group. cbn [snd lookup_cap Nat.eqb].
  rewrite G2, G3, T1'.
  destruct D as [|x0d D]; [discriminate|].
  assert (TT : truthy (T1 ++ [d]) = true) by (destruct T1; reflexivity).
  rewrite TT. simpl. eexists; split; [reflexivity|]. simpl. auto.
Qed.
End Legacy.

(** C6: [parseCitation] on [Section 3, Data Protection Act 2018] gives a
    valid citation with section [3], title [Data Protection Act] and year
    2018. In general, for each form that carries a title, when the title
    string ends in white space and four ASCII digits, the digits are the
    year and the title is the trimmed text before them: for the forms
    [§ SEC, TITLE], [TITLE § SEC] and [paraN TITLE] the title capture goes
    through [splitYear]; for the legacy form [Section SEC, TITLE] the title
    string is the text from the start [q] of its capture on. *)
Theorem title_year_extraction :
  (let p := parseCitation (u "Section 3, Data Protection Act 2018") in
   valid p = true /\ section p = Some (u "3") /\
   title p = Some (u "Data Protection Act") /\ year p = Some 2018%Z) /\
  (forall cit sec t P sp D,
     (two_groups (trim cit) SECTION_THEN_TITLE = Some (sec, t) \/
      (two_groups (trim cit) SECTION_THEN_TITLE = None /\
       two_groups (trim cit) TITLE_THEN_SECTION = Some (t, sec)) \/
      (two_groups (trim cit) SECTION_THEN_TITLE = None /\
       two_groups (trim cit) TITLE_THEN_SECTION = None /\
       two_groups (trim cit) MACHINE_REF_THEN_TITLE = Some (sec, t))) ->
     trim t = P ++ sp ++ D -> sp <> [] -> Forall (fun c => is_js_space c = true) sp ->
     List.length D = 4 -> Forall (fun c => is_digit c = true) D ->
     title (parseCitation cit) = Some (trim P) /\ year (parseCitation cit) = Some (parseInt10 D)) /\
  (forall cit i st q e T0 sp D,
     two_groups (trim cit) SECTION_THEN_TITLE = None ->
     two_groups (trim cit) TITLE_THEN_SECTION = None ->
     two_groups (trim cit) MACHINE_REF_THEN_TITLE = None ->
     search (trim cit) LEGACY_ENGLISH = Some (i, st) ->
     lookup_cap 2 (snd st) = Some (q, e) ->
     skipn q (trim cit) = T0 ++ sp ++ D ->
     (exists T1 d, T0 = T1 ++ [d] /\ is_js_space d = false) ->
     sp <> [] -> Forall (fun c => is_js_space c = true) sp ->
     List.length D = 4 -> Forall (fun c => is_digit c = true) D ->
     title (parseCitation cit) = Some (trim T0) /\ year (parseCitation cit) = Some (parseInt10 D)).
Proof.
  split; [vm_compute; auto|]. split.
  - intros cit sec t P sp D Hform Et NE Fsp L FD.
    pose proof (splitYear_bare_year t P sp D Et NE Fsp L FD) as Y.
    assert (Tr : truthy (trim cit) = true).
    { destruct (trim cit) eqn:E; [|reflexivity]. exfalso.
      destruct Hform as [H|[[_ H]|[_ [_ H]]]]; vm_compute in H; discriminate. }
    unfold parseCitation. cbv zeta. rewrite Tr. cbn [negb].
    destruct Hform as [H|[[H0 H]|[H0 [H1 H]]]]; rewrite ?H0, ?H1, H, Y;
      unfold parseSection; cbn [title year option_map]; rewrite CleanerFacts.trim_idem; auto.
  - intros cit i st q e T0 sp D H1 H2 H3 Hs Hc Eq HT NE Fsp L FD.
    destruct (legacy_bare_year (trim cit) i st q e T0 sp D Hs Hc Eq HT NE Fsp L FD) as [p [Hp [Tp Yp]]].
    assert (Tr : truthy (trim cit) = true).
    { destruct (trim cit) eqn:E; [|reflexivity]. exfalso. rewrite skipn_nil in Eq.
      apply (f_equal (@List.length Z)) in Eq. rewrite !length_app in Eq. simpl in Eq. lia. }
    unfold parseCitation. cbv zeta. rewrite Tr. cbn [negb].
    rewrite H1, H2, H3, Hp. auto.
Qed.

Lemma title_year_extraction_witness :
  (title (parseCitation (u "§ 1 DSG 2018")) = Some (trim (u "DSG")) /\
   year (parseCitation (u "§ 1 DSG 2018")) = Some (parseInt10 (u "2018"))) /\
  (title (parseCitation (u "Section 3, Data Protection Act 2018")) =
     Some (trim (u "Data Protection Act")) /\
   year (parseCitation (u "Section 3, Data Protection Act 2018")) = Some (parseInt10 (u "2018"))).
Proof.
  split.
  - apply (proj1 (proj2 title_year_extraction) (u "§ 1 DSG 2018") (u "1") (u "DSG 2018")
             (u "DSG") (u " ") (u "2018")).
    + left. vm_compute. reflexivity.
    + vm_compute. reflexivity.
    + discriminate.
    + repeat constructor.
    + reflexivity.
    + repeat constructor.
  - eapply (proj2 (proj2 title_year_extraction) (u "Section 3, Data Protection Act 2018")
              _ _ _ _ (u "Data Protection Act") (u " ") (u "2018")).
    + vm_compute. reflexivity.
    + vm_compute. reflexivity.
    + vm_compute. reflexivity.
    + vm_compute. reflexivity.
    + vm_compute. reflexivity.
    + vm_compute. reflexivity.
    + exists (u "Data Protection Ac"), 116%Z. split; reflexivity.
    + discriminate.
    + repeat constructor.
    + reflexivity.
    + repeat constructor.
Defined.
End YearFacts.

(* ------------------------------------------------------------------ *)
(** ** Further properties of the citation parser *)

Module ParserProps.

Import Parser RegexFacts.

(** The text of a capture whose body is [r{k}] for a one-unit class [r]. *)
Lemma rep_char_substring s k P : forall a b c1 c2,
  Rel s (rep k (RChar P)) (a, c1) (b, c2) ->
  List.length (substring s a b) = k /\ Forall (fun x => P x = true) (substring s a b).
Proof.
  induction k as [|k IH]; intros a b c1 c2 R; simpl in R.
  - apply Rel_empty_inv in R. inversion R; subst. unfold substring. rewrite Nat.sub_diag. auto.
  - apply Rel_seq_inv in R as [[p1 c3] [R1 R2]].
    apply YearFacts.Rel_char_skip in R1 as [x [Ex [Px Est]]]. inversion Est; subst p1 c3. cbn [fst snd] in Ex.
    pose proof (Rel_mono s _ _ _ R2) as Mo. simpl in Mo.
    destruct (IH _ _ _ _ R2) as [L F].
    unfold substring in *. rewrite Ex. set (Y := skipn (S a) s) in *. replace (b - a) with (S (b - S a)) by lia. cbn [firstn].
    split; [simpl List.length; lia | constructor; assumption].
Qed.

Lemma group_text_rep s r p st n k P a b :
  Rel s r (p, []) st ->
  (forall body, In (n, body) (groups_of r) -> body = rep k (RChar P)) ->
  lookup_cap n (snd st) = Some (a, b) ->
  List.length (substring s a b) = k /\ Forall (fun x => P x = true) (substring s a b).
Proof.
  intros R B L. destruct (cap_origin s r _ _ R n a b L) as [H|[body [c1 [c2 [I Rb]]]]];
    [discriminate|].
  rewrite (B body I) in Rb. exact (rep_char_substring s k P a b c1 c2 Rb).
Qed.

Lemma parseInt10_bound_gen X : forall acc,
  Forall (fun c => is_digit c = true) X -> (0 <= acc)%Z ->
  (0 <= fold_left (fun acc c => (acc * 10 + (c - 48))%Z) X acc < (acc + 1) * 10 ^ Z.of_nat (List.length X))%Z.
Proof.
  induction X as [|x X IH]; intros acc F A; cbn [fold_left List.length]; [lia|].
  inversion F as [|? ? Dx FX]; subst. unfold is_digit in Dx.
  apply andb_true_iff in Dx as [D1 D2]. apply Z.leb_le in D1. apply Z.leb_le in D2.
  specialize (IH (acc * 10 + (x - 48))%Z FX ltac:(lia)).
  rewrite Nat2Z.inj_succ, Z.pow_succ_r by lia.
  assert (0 <= 10 ^ Z.of_nat (List.length X))%Z by (apply Z.pow_nonneg; lia). nia.
Qed.

Lemma parseInt10_four_digits X :
  List.length X = 4 -> Forall (fun c => is_digit c = true) X -> (0 <= parseInt10 X <= 9999)%Z.
Proof.
  intros L F. pose proof (parseInt10_bound_gen X 0 F ltac:(lia)) as H.
  unfold parseInt10. rewrite L in H. simpl in H. lia.
Qed.

(** Where the [year] of a parse comes from: [splitYear], or group 3 of the
    legacy English pattern. *)
Lemma parseCitation_year_origin cit y :
  year (parseCitation cit) = Some y ->
  (exists t, snd (splitYear t) = Some y) \/
  (exists i st a b, search (trim cit) LEGACY_ENGLISH = Some (i, st) /\
                    lookup_cap 3 (snd st) = Some (a, b) /\ y = parseInt10 (substring (trim cit) a b)).
Proof.
  unfold parseCitation.
  destruct (negb (truthy (trim cit))); [discriminate|].
  destruct (two_groups (trim cit) SECTION_THEN_TITLE) as [[a b]|].
  { destruct (splitYear b) as [ct yy] eqn:SY. simpl. intros ->. left. exists b. rewrite SY. reflexivity. }
  destruct (two_groups (trim cit) TITLE_THEN_SECTION) as [[a b]|].
  { destruct (splitYear a) as [ct yy] eqn:SY. simpl. intros ->. left. exists a. rewrite SY. reflexivity. }
  destruct (two_groups (trim cit) MACHINE_REF_THEN_TITLE) as [[a b]|].
  { destruct (splitYear b) as [ct yy] eqn:SY. simpl. intros ->. left. exists b. rewrite SY. reflexivity. }
  destruct (legacy_form (trim cit)) as [p|] eqn:E.
  { unfold legacy_form in E.
    destruct (search (trim cit) LEGACY_ENGLISH) as [[i st]|] eqn:S; [|discriminate].
    destruct (group (trim cit) st 1), (group (trim cit) st 2); try discriminate.
    destruct (truthy j && truthy j0); [|discriminate].
    inversion E; subst. simpl.
    unfold group. destruct (lookup_cap 3 (snd st)) as [[a b]|] eqn:L3; [|discriminate].
    destruct (truthy (substring (trim cit) a b)); [|discriminate].
    intros H. inversion H. right. exists i, st, a, b. auto. }
  destruct (test BARE_MACHINE_REF (trim cit)); [discriminate|].
  destruct (search (trim cit) BARE_SECTION) as [[i st]|]; discriminate.
Qed.

Lemma splitYear_year_range t y : snd (splitYear t) = Some y -> (0 <= y <= 9999)%Z.
Proof.
  unfold splitYear. cbv zeta.
  destruct (search (trim t) YEAR_SUFFIX) as [[i st]|] eqn:S; [|discriminate].
  unfold group. destruct (lookup_cap 1 (snd st)) as [[a b]|] eqn:L; [|discriminate].
  destruct (truthy (substring (trim t) a b)); [|discriminate].
  simpl. intros H. inversion H; subst y.
  apply search_sound in S.
  destruct (group_text_rep _ _ _ _ 1 4 is_digit a b S) as [Ln F]; [|exact L|].
  - intros body I. simpl in I. destruct I as [I|[]]. inversion I; reflexivity.
  - apply parseInt10_four_digits; assumption.
Qed.

Lemma legacy_year_range s i st a b :
  search s LEGACY_ENGLISH = Some (i, st) -> lookup_cap 3 (snd st) = Some (a, b) ->
  (0 <= parseInt10 (substring s a b) <= 9999)%Z.
Proof.
  intros S L. apply search_sound in S.
  destruct (group_text_rep _ _ _ _ 3 4 (fun c => existsb (fun x => (canonicalize x =? canonicalize c)%Z) (range 48 10)) a b S) as [Ln F]; [|exact L|].
  - intros body I. simpl in I.
    repeat (destruct I as [I|I]; [first [inversion I; fail | inversion I; reflexivity] |]).
    contradiction.
  - apply parseInt10_four_digits; [exact Ln|].
    eapply Forall_impl; [|exact F]. intros x. apply SectionFacts.digit_i_sound.
Qed.

(** Every year that [parseCitation] reports is the value of four ASCII
    digits, so lies in [0, 9999]. *)
Theorem parseCitation_year_range cit y :
  year (parseCitation cit) = Some y -> (0 <= y <= 9999)%Z.
Proof.
  intros H. apply parseCitation_year_origin in H as [[t T]|[i [st [a [b [S [L ->]]]]]]].
  - exact (splitYear_year_range t y T).
  - exact (legacy_year_range _ i st a b S L).
Qed.

Lemma parseCitation_year_range_witness :
  year (parseCitation (u "Section 3, Data Protection Act 2018")) = Some 2018%Z /\
  (0 <= 2018 <= 9999)%Z.
Proof.
  split; [vm_compute; reflexivity|].
  apply (parseCitation_year_range (u "Section 3, Data Protection Act 2018")).
  vm_compute. reflexivity.
Defined.

Lemma substring_of_skip s a b Y :
  skipn a s = Y ++ skipn b s -> a <= b -> b <= List.length s -> substring s a b = Y.
Proof.
  intros E L1 L2. unfold substring. rewrite E.
  assert (Ln : List.length Y = b - a).
  { pose proof (length_skipn a s) as H1. pose proof (length_skipn b s) as H2.
    rewrite E, length_app in H1. lia. }
  rewrite <- Ln, firstn_app, Nat.sub_diag, firstn_all. simpl. apply app_nil_r.
Qed.

(** The text of a capture whose body is [r+] for a one-unit class [r]. *)
Lemma plus_char_substring s P a b c1 c2 :
  Rel s (plus (RChar P)) (a, c1) (b, c2) ->
  substring s a b <> [] /\ Forall (fun x => P x = true) (substring s a b).
Proof.
  intros R. pose proof (Rel_mono s _ _ _ R) as Mo. pose proof (Rel_bound s _ _ _ R) as Bd.
  simpl in Mo, Bd.
  apply Rel_seq_inv in R as [st1 [R1 R2]].
  apply YearFacts.Rel_char_skip in R1 as [x [Ex [Px ->]]].
  apply YearFacts.Rel_star_char_skip in R2 as [_ [X [E F]]]. cbn [fst snd] in *.
  assert (Ha : a < List.length s)
    by (apply YearFacts.skipn_nonempty_lt; rewrite Ex; discriminate).
  rewrite E in Ex.
  rewrite (substring_of_skip s a b (x :: X) Ex Mo ltac:(lia)).
  split; [discriminate | constructor; assumption].
Qed.

Lemma az_i_sound c :
  existsb (fun x => (canonicalize x =? canonicalize c)%Z) (range 97 26) = true ->
  (is_ascii_upper c || is_ascii_lower c)%bool = true.
Proof.
  intros H. apply existsb_exists in H as [x [I E]].
  apply SectionFacts.range_bounds in I. apply Z.eqb_eq in E. simpl in I.
  unfold canonicalize in E at 1.
  assert (Lx : is_ascii_lower x = true) by (unfold is_ascii_lower; apply andb_true_iff; split; apply Z.leb_le; lia).
  rewrite Lx in E. unfold canonicalize in E.
  unfold is_ascii_upper, is_ascii_lower in *.
  destruct ((97 <=? c)%Z && (c <=? 122)%Z) eqn:Lc; [rewrite orb_true_r; reflexivity|].
  destruct (c =? 181)%Z eqn:E181; [lia|].
  destruct ((224 <=? c)%Z && (c <=? 254)%Z && negb (c =? 247)%Z) eqn:E2.
  - apply andb_true_iff in E2 as [E2 _]. apply andb_true_iff in E2 as [E2 E3].
    apply Z.leb_le in E2. lia.
  - destruct (c =? 255)%Z; [lia|].
    apply orb_true_iff. left. apply andb_true_iff. split; apply Z.leb_le; lia.
Qed.

(** Every subsection that [parseCitation] reports is a non-empty string of
    ASCII digits, and every paragraph a single ASCII letter: both come from
    the groups [(\d+)] and [([a-z])] of [SECTION_REF]. *)
Theorem parseCitation_subsection_paragraph cit :
  (forall sub, subsection (parseCitation cit) = Some sub ->
     sub <> [] /\ Forall (fun c => is_digit c = true) sub) /\
  (forall par, paragraph (parseCitation cit) = Some par ->
     exists c, par = [c] /\ (is_ascii_upper c || is_ascii_lower c)%bool = true).
Proof.
  destruct (ParserFacts.parseCitation_cases cit) as [[e ->]|[sec [t [y ->]]]];
    [split; intros; discriminate|].
  unfold parseSection. cbv zeta. cbn [subsection paragraph].
  set (nz := trim (replace_first PARA_PREFIX sec [])).
  destruct (search nz SECTION_REF) as [[i st]|] eqn:HS; [|split; intros; discriminate].
  apply search_sound in HS. unfold group. split.
  - intros sub. destruct (lookup_cap 2 (snd st)) as [[a b]|] eqn:L; [|discriminate].
    intros H. inversion H; subst sub. clear H.
    destruct (cap_origin nz _ _ _ HS 2 a b L) as [H|[body [c1 [c2 [I Rb]]]]]; [discriminate|].
    simpl in I. repeat (destruct I as [I|I]; [first [inversion I; fail | inversion I; subst body] |]);
      [|contradiction].
    destruct (plus_char_substring _ _ _ _ _ _ Rb) as [N F]. split; [exact N|].
    eapply Forall_impl; [|exact F]. intros x. apply SectionFacts.digit_i_sound.
  - intros par. destruct (lookup_cap 3 (snd st)) as [[a b]|] eqn:L; [|discriminate].
    intros H. inversion H; subst par. clear H.
    destruct (cap_origin nz _ _ _ HS 3 a b L) as [H|[body [c1 [c2 [I Rb]]]]]; [discriminate|].
    simpl in I. repeat (destruct I as [I|I]; [first [inversion I; fail | inversion I; subst body] |]);
      [|contradiction].
    apply YearFacts.Rel_char_skip in Rb as [c [Ex [Pc Eq]]]. cbn [fst snd] in *.
    inversion Eq; subst b.
    assert (Ha : a < List.length nz)
      by (apply YearFacts.skipn_nonempty_lt; rewrite Ex; discriminate).
    rewrite (substring_of_skip nz a (S a) [c] Ex ltac:(lia) ltac:(lia)).
    exists c. split; [reflexivity|]. apply az_i_sound. exact Pc.
Qed.

Lemma parseCitation_subsection_paragraph_witness :
  subsection (parseCitation (u "§ 3(1)(a) DSG")) = Some (u "1") /\
  paragraph (parseCitation (u "§ 3(1)(a) DSG")) = Some (u "a") /\
  ((u "1" <> [] /\ Forall (fun c => is_digit c = true) (u "1")) /\
   exists c, u "a" = [c] /\ (is_ascii_upper c || is_ascii_lower c)%bool = true).
Proof.
  split; [vm_compute; reflexivity|]. split; [vm_compute; reflexivity|]. split.
  - apply (proj1 (parseCitation_subsection_paragraph (u "§ 3(1)(a) DSG"))). vm_compute. reflexivity.
  - apply (proj2 (parseCitation_subsection_paragraph (u "§ 3(1)(a) DSG"))). vm_compute. reflexivity.
Defined.

(** [parseCitation] trims its input first: surrounding white space never
    changes the result. *)
Theorem parseCitation_surrounding_space sp1 cit sp2 :
  Forall (fun c => is_js_space c = true) sp1 ->
  Forall (fun c => is_js_space c = true) sp2 ->
  parseCitation (sp1 ++ cit ++ sp2) = parseCitation cit.
Proof.
  intros F1 F2. unfold parseCitation.
  assert (E : trim (sp1 ++ cit ++ sp2) = trim cit).
  { unfold trim at 1. rewrite CleanerFacts.trim_start_spaces by exact F1.
    fold (trim (cit ++ sp2)). apply YearFacts.trim_app_spaces. exact F2. }
  rewrite E. reflexivity.
Qed.

Lemma parseCitation_surrounding_space_witness :
  Forall (fun c => is_js_space c = true) (u "  ") /\
  Forall (fun c => is_js_space c = true) (u " ") /\
  parseCitation (u "  " ++ u "§ 1 DSG" ++ u " ") = parseCitation (u "§ 1 DSG").
Proof.
  split; [repeat constructor|]. split; [repeat constructor|].
  apply parseCitation_surrounding_space; repeat constructor.
Defined.

(** Every title that [parseCitation] reports is already trimmed. *)
Theorem parseCitation_title_trimmed cit t :
  title (parseCitation cit) = Some t -> trim t = t.
Proof.
  destruct (ParserFacts.parseCitation_cases cit) as [[e ->]|[sec [t' [y ->]]]];
    [discriminate|].
  unfold parseSection. cbn [title]. destruct t' as [t'|]; [|discriminate].
  cbn [option_map]. intros H. inversion H; subst t. apply CleanerFacts.trim_idem.
Qed.

Lemma parseCitation_title_trimmed_witness :
  title (parseCitation (u "§ 3 Datenschutzgesetz ")) = Some (u "Datenschutzgesetz") /\
  trim (u "Datenschutzgesetz") = u "Datenschutzgesetz".
Proof.
  split; [vm_compute; reflexivity|].
  apply (parseCitation_title_trimmed (u "§ 3 Datenschutzgesetz ")). vm_compute. reflexivity.
Defined.

End ParserProps.


(* ------------------------------------------------------------------ *)
(** ** Properties of the formatter *)

Module FormatterProps.

Import Parser Formatter.

Lemma buildPinpoint_section p s :
  section p = Some s -> exists r, buildPinpoint p = s ++ r.
Proof.
  intros E. unfold buildPinpoint. rewrite E.
  destruct (subsection p) as [sub|]; [destruct (truthy sub)|];
    (destruct (paragraph p) as [par|]; [destruct (truthy par)|]);
    rewrite <- ?app_assoc; first [exists []; rewrite app_nil_r; reflexivity | eexists; reflexivity].
Qed.

(** [formatCitation] returns the empty string exactly when the citation is
    not valid or its section is absent or empty; in every style. *)
Theorem formatCitation_empty_iff p f :
  formatCitation p f = [] <-> valid p = false \/ opt_truthy (section p) = false.
Proof.
  unfold formatCitation.
  destruct (valid p); [|simpl; tauto].
  destruct (opt_truthy (section p)); [|simpl; tauto]. simpl.
  split; [|intros [H|H]; discriminate].
  destruct f; [destruct (truthy (titleAndYear p))| destruct (title p) as [t|]; [destruct (truthy t)|] |];
    discriminate.
Qed.

(** Whenever [formatCitation] produces text, it starts with [§ ] followed by
    the section, in every style. *)
Theorem formatCitation_section_prefix p f s :
  valid p = true -> section p = Some s -> s <> [] ->
  exists r, formatCitation p f = u "§ " ++ s ++ r.
Proof.
  intros V E N. destruct (buildPinpoint_section p s E) as [r R].
  unfold formatCitation. rewrite V, E.
  assert (T : truthy s = true) by (destruct s; [congruence | reflexivity]).
  cbn [opt_truthy]. rewrite T. cbn [negb orb]. rewrite R.
  destruct f; [destruct (truthy (titleAndYear p))| destruct (title p) as [t|]; [destruct (truthy t)|] |];
    rewrite <- ?app_assoc; first [exists []; rewrite app_nil_r; reflexivity | eexists; reflexivity].
Qed.

Lemma formatCitation_section_prefix_witness :
  valid (parseCitation (u "§ 3 DSG")) = true /\
  section (parseCitation (u "§ 3 DSG")) = Some (u "3") /\ u "3" <> [] /\
  exists r, formatCitation (parseCitation (u "§ 3 DSG")) Short = u "§ " ++ u "3" ++ r.
Proof.
  split; [vm_compute; reflexivity|]. split; [vm_compute; reflexivity|].
  split; [discriminate|].
  apply formatCitation_section_prefix; [vm_compute; reflexivity | vm_compute; reflexivity | discriminate].
Defined.

(** The pinpoint style is a prefix of the other styles: the full and short
    styles only append text after the pinpoint. *)
Theorem formatCitation_pinpoint_prefix p f :
  exists r, formatCitation p f = formatCitation p Pinpoint ++ r.
Proof.
  unfold formatCitation.
  destruct (negb (valid p) || negb (opt_truthy (section p))); [exists []; reflexivity|].
  destruct f; [destruct (truthy (titleAndYear p))| destruct (title p) as [t|]; [destruct (truthy t)|] |];
    rewrite <- ?app_assoc; first [exists []; rewrite app_nil_r; reflexivity | eexists; reflexivity].
Qed.

(** Every successful parse formats to a non-empty citation: in every style
    the text starts with [§ ] and a digit. *)
Theorem formatCitation_of_valid_parse cit f :
  valid (parseCitation cit) = true ->
  exists d r, formatCitation (parseCitation cit) f = u "§ " ++ d :: r /\ is_digit d = true.
Proof.
  intros V.
  destruct (SectionFacts.parseCitation_shape cit) as [[e E]|[sec [t [y [D E]]]]].
  - rewrite E in V. discriminate.
  - rewrite E in *.
    destruct (SectionFacts.parseSection_section sec t y Statute D) as [c [t' [S Dc]]].
    destruct (formatCitation_section_prefix (parseSection sec t y Statute) f (c :: t') V S
                ltac:(discriminate)) as [r R].
    exists c, (t' ++ r). split; [exact R | exact Dc].
Qed.

Lemma formatCitation_of_valid_parse_witness :
  valid (parseCitation (u "Paragraph 12 ABGB")) = true /\
  exists d r, formatCitation (parseCitation (u "Paragraph 12 ABGB")) Full = u "§ " ++ d :: r /\
              is_digit d = true.
Proof.
  split; [vm_compute; reflexivity|].
  apply formatCitation_of_valid_parse. vm_compute. reflexivity.
Defined.

End FormatterProps.

(* ------------------------------------------------------------------ *)
(** ** Properties of the search-query builder *)

Module FtsProps.

Import Fts.

Lemma join_quoted_nonempty sep ts : ts <> [] -> join sep (map quoted_prefix ts) <> [].
Proof.
  destruct ts as [|t ts]; [congruence|]. intros _.
  destruct ts; simpl; discriminate.
Qed.

Lemma buildSanitizedFallback_truthy is_letter is_number s f :
  buildSanitizedFallback is_letter is_number s = Some f -> truthy f = true.
Proof.
  unfold buildSanitizedFallback.
  destruct (filter truthy _) as [|t ts] eqn:E; [discriminate|].
  intros H.
  assert (Ef : join (u " OR ") (map quoted_prefix (t :: ts)) = f) by congruence.
  rewrite <- Ef.
  pose proof (join_quoted_nonempty (u " OR ") (t :: ts) ltac:(discriminate)) as N.
  revert N. generalize (join (u " OR ") (map quoted_prefix (t :: ts))).
  intros [|z j] N; [congruence | reflexivity].
Qed.

(** For a query with explicit search syntax, [primary] is the trimmed query
    and [fallback] is exactly the result of [buildSanitizedFallback] on it:
    the [fallback &&] guard never drops a fallback, since a built fallback
    is never the empty string. *)
Theorem fts_explicit_passthrough is_letter is_number q :
  test EXPLICIT_FTS_SYNTAX (trim q) = true ->
  primary (buildFtsQueryVariants is_letter is_number q) = trim q /\
  fallback (buildFtsQueryVariants is_letter is_number q) =
    buildSanitizedFallback is_letter is_number (trim q).
Proof.
  intros H. unfold buildFtsQueryVariants. rewrite H. cbn [primary fallback].
  split; [reflexivity|].
  destruct (buildSanitizedFallback is_letter is_number (trim q)) as [f|] eqn:E; [|reflexivity].
  rewrite (buildSanitizedFallback_truthy _ _ _ _ E). reflexivity.
Qed.

Lemma fts_explicit_passthrough_witness :
  test EXPLICIT_FTS_SYNTAX (trim (u " Daten AND (Schutz ")) = true /\
  primary (buildFtsQueryVariants Fts.latin1_letter Fts.latin1_number (u " Daten AND (Schutz "))
    = trim (u " Daten AND (Schutz ") /\
  fallback (buildFtsQueryVariants Fts.latin1_letter Fts.latin1_number (u " Daten AND (Schutz "))
    = buildSanitizedFallback Fts.latin1_letter Fts.latin1_number (trim (u " Daten AND (Schutz ")).
Proof.
  split; [vm_compute; reflexivity|].
  apply fts_explicit_passthrough. vm_compute. reflexivity.
Defined.

(** A blank query (empty or white space only) gives the empty string as
    [primary] and no fallback. *)
Theorem fts_blank_query is_letter is_number q :
  Forall (fun c => is_js_space c = true) q ->
  primary (buildFtsQueryVariants is_letter is_number q) = [] /\
  fallback (buildFtsQueryVariants is_letter is_number q) = None.
Proof.
  intros H. unfold buildFtsQueryVariants. rewrite (ParserFacts.trim_all_space q H).
  split; reflexivity.
Qed.

Lemma fts_blank_query_witness :
  Forall (fun c => is_js_space c = true) (u " 	 ") /\
  primary (buildFtsQueryVariants Fts.latin1_letter Fts.latin1_number (u " 	 ")) = [] /\
  fallback (buildFtsQueryVariants Fts.latin1_letter Fts.latin1_number (u " 	 ")) = None.
Proof.
  split; [repeat constructor|].
  apply fts_blank_query. repeat constructor.
Defined.

(** [buildFtsQueryVariants] trims its input first: surrounding white space
    never changes the result. *)
Theorem fts_surrounding_space is_letter is_number sp1 q sp2 :
  Forall (fun c => is_js_space c = true) sp1 ->
  Forall (fun c => is_js_space c = true) sp2 ->
  buildFtsQueryVariants is_letter is_number (sp1 ++ q ++ sp2) =
  buildFtsQueryVariants is_letter is_number q.
Proof.
  intros F1 F2. unfold buildFtsQueryVariants.
  assert (E : trim (sp1 ++ q ++ sp2) = trim q).
  { unfold trim at 1. rewrite CleanerFacts.trim_start_spaces by exact F1.
    fold (trim (q ++ sp2)). apply YearFacts.trim_app_spaces. exact F2. }
  rewrite E. reflexivity.
Qed.

Lemma fts_surrounding_space_witness :
  Forall (fun c => is_js_space c = true) (u " ") /\
  Forall (fun c => is_js_space c = true) (u "  ") /\
  buildFtsQueryVariants latin1_letter latin1_number (u " " ++ u "Datenschutz" ++ u "  ") =
  buildFtsQueryVariants latin1_letter latin1_number (u "Datenschutz").
Proof.
  split; [repeat constructor|]. split; [repeat constructor|].
  apply fts_surrounding_space; repeat constructor.
Defined.

(** [primary] is empty exactly when the trimmed query is empty. *)
Theorem fts_primary_empty_iff is_letter is_number q :
  primary (buildFtsQueryVariants is_letter is_number q) = [] <-> trim q = [].
Proof.
  unfold buildFtsQueryVariants.
  destruct (test EXPLICIT_FTS_SYNTAX (trim q)); [reflexivity|].
  destruct (plain_tokens is_letter is_number (trim q)) as [|t ts] eqn:E; [reflexivity|].
  cbn [primary]. split.
  - intros H. exfalso. exact (join_quoted_nonempty (u " ") (t :: ts) ltac:(discriminate) H).
  - intros H. rewrite H in E. vm_compute in E. discriminate.
Qed.

Section Sanitized.

Variables is_letter is_number : Z -> bool.

Hypothesis ascii_letter : forall c, (c < 128)%Z -> is_letter c = is_ascii_upper c || is_ascii_lower c.
Hypothesis ascii_number : forall c, (c < 128)%Z -> is_number c = is_digit c.

(** [buildSanitizedFallback] returns [null] or the [ OR ]-join of a
    non-empty list of tokens, each quoted and prefix-wildcarded, non-empty
    and free of ASCII units other than letters, digits, [_] and [-]. *)
Theorem buildSanitizedFallback_shape q :
  buildSanitizedFallback is_letter is_number q = None \/
  exists ts, ts <> [] /\ Forall (fun t => t <> [] /\ Forall ascii_safe t) ts /\
    buildSanitizedFallback is_letter is_number q = Some (join (u " OR ") (map quoted_prefix ts)).
Proof.
  unfold buildSanitizedFallback.
  set (ts := filter truthy _).
  assert (F : Forall (fun t => t <> [] /\ Forall ascii_safe t) ts).
  { apply Forall_forall. intros t I. unfold ts in I.
    apply filter_In in I as [I T]. apply in_map_iff in I as [x [E _]]. subst t.
    split; [destruct (sanitizeToken _ _ x); discriminate |
            exact (FtsFacts.sanitizeToken_safe is_letter is_number ascii_letter ascii_number x)]. }
  clearbody ts. destruct ts as [|t ts']; [left; reflexivity|].
  right. exists (t :: ts'). split; [discriminate|]. split; [exact F | reflexivity].
Qed.

End Sanitized.

Lemma buildSanitizedFallback_shape_witness :
  buildSanitizedFallback latin1_letter latin1_number (u "(Daten)") = Some ([34%Z] ++ u "Daten" ++ [34; 42]%Z) /\
  (buildSanitizedFallback latin1_letter latin1_number (u "(Daten)") = None \/
   exists ts, ts <> [] /\ Forall (fun t => t <> [] /\ Forall ascii_safe t) ts /\
    buildSanitizedFallback latin1_letter latin1_number (u "(Daten)") =
      Some (join (u " OR ") (map quoted_prefix ts))).
Proof.
  split; [vm_compute; reflexivity|].
  apply (buildSanitizedFallback_shape latin1_letter latin1_number
           FtsFacts.latin1_ascii_letter FtsFacts.latin1_ascii_number).
Defined.

Section Idempotent.

Variables is_letter is_number : Z -> bool.

(** Surrogate code units are neither letters nor numbers (category Cs). *)
Hypothesis surrogate_not_kept :
  forall c, (55296 <= c <= 57343)%Z -> is_letter c = false /\ is_number c = false.

Lemma surrogate_dropped c :
  (is_high_surrogate c || is_low_surrogate c)%bool = true ->
  kept_code_point is_letter is_number c = false.
Proof.
  intros H. assert (R : (55296 <= c <= 57343)%Z).
  { unfold is_high_surrogate, is_low_surrogate in H.
    apply orb_true_iff in H as [H|H]; apply andb_true_iff in H as [H1 H2];
      apply Z.leb_le in H1; apply Z.leb_le in H2; lia. }
  destruct (surrogate_not_kept c R) as [L N]. unfold kept_code_point. rewrite L, N.
  replace (c =? 95)%Z with false by (symmetry; apply Z.eqb_neq; lia).
  replace (c =? 45)%Z with false by (symmetry; apply Z.eqb_neq; lia). reflexivity.
Qed.

Lemma sanitizeToken_idem_len n : forall t, List.length t <= n ->
  sanitizeToken is_letter is_number (sanitizeToken is_letter is_number t) =
  sanitizeToken is_letter is_number t.
Proof.
  induction n as [|n IH]; intros t Lt.
  { destruct t; [reflexivity | simpl in Lt; lia]. }
  destruct t as [|h rest]; [reflexivity|]. simpl in Lt.
  assert (Kh : is_high_surrogate h = true -> kept_code_point is_letter is_number h = false)
    by (intros Hh; apply surrogate_dropped; rewrite Hh; reflexivity).
  cbn [sanitizeToken].
  destruct (is_high_surrogate h) eqn:Hh.
  - rewrite (Kh eq_refl). destruct rest as [|l rest']; [reflexivity|]. simpl in Lt.
    destruct (is_low_surrogate l) eqn:Hl.
    + destruct (kept_code_point is_letter is_number (65536 + (h - 55296) * 1024 + (l - 56320))%Z)
        eqn:K.
      * cbn [sanitizeToken]. rewrite Hh, Hl, K. f_equal. f_equal. apply IH. lia.
      * apply IH. lia.
    + apply IH. simpl. lia.
  - destruct (kept_code_point is_letter is_number h) eqn:K.
    + cbn [sanitizeToken]. rewrite Hh, K. f_equal. apply IH. lia.
    + apply IH. lia.
Qed.

(** [sanitizeToken] is idempotent: a sanitized token is kept as it is.
    This needs that surrogate code units are not letters or numbers, so
    that a lone surrogate is always dropped and cannot pair up with a unit
    that became its neighbour. *)
Theorem sanitizeToken_idempotent t :
  sanitizeToken is_letter is_number (sanitizeToken is_letter is_number t) =
  sanitizeToken is_letter is_number t.
Proof. apply (sanitizeToken_idem_len (List.length t)). lia. Qed.

End Idempotent.

Lemma latin1_surrogate c :
  (55296 <= c <= 57343)%Z -> latin1_letter c = false /\ latin1_number c = false.
Proof.
  intros R. unfold latin1_letter, latin1_number, is_ascii_upper, is_ascii_lower, is_digit.
  repeat first [ rewrite (proj2 (Z.leb_gt c 90)) by lia
               | rewrite (proj2 (Z.leb_gt c 122)) by lia
               | rewrite (proj2 (Z.leb_gt c 57)) by lia
               | rewrite (proj2 (Z.leb_gt c 255)) by lia
               | rewrite (proj2 (Z.leb_gt c 190)) by lia
               | rewrite (proj2 (Z.eqb_neq c 170)) by lia
               | rewrite (proj2 (Z.eqb_neq c 181)) by lia
               | rewrite (proj2 (Z.eqb_neq c 186)) by lia
               | rewrite (proj2 (Z.eqb_neq c 178)) by lia
               | rewrite (proj2 (Z.eqb_neq c 179)) by lia
               | rewrite (proj2 (Z.eqb_neq c 185)) by lia ].
  rewrite !andb_false_r. split; reflexivity.
Qed.

Lemma sanitizeToken_idempotent_witness :
  sanitizeToken latin1_letter latin1_number
    (sanitizeToken latin1_letter latin1_number ([56320%Z] ++ u "a:b" ++ [55357; 56832]%Z)) =
  sanitizeToken latin1_letter latin1_number ([56320%Z] ++ u "a:b" ++ [55357; 56832]%Z).
Proof.
  apply (sanitizeToken_idempotent latin1_letter latin1_number latin1_surrogate).
Defined.

End FtsProps.

(* ------------------------------------------------------------------ *)
(** ** Properties of the validator *)

Module ValidatorProps.

Import Parser Validator.

(** The two error messages of [parseCitation]. *)
Lemma parseCitation_error_text cit e :
  parseCitation cit = invalid e ->
  e = u "Empty citation" \/ exists t, e = u "Could not parse Austrian citation: " ++ t.
Proof.
  unfold parseCitation. intros H.
  destruct (negb (truthy (trim cit))).
  { apply (f_equal error) in H. cbn [error invalid] in H. injection H as <-. left; reflexivity. }
  destruct (two_groups (trim cit) SECTION_THEN_TITLE) as [[a b]|].
  { destruct (splitYear b). apply (f_equal valid) in H. discriminate. }
  destruct (two_groups (trim cit) TITLE_THEN_SECTION) as [[a b]|].
  { destruct (splitYear a). apply (f_equal valid) in H. discriminate. }
  destruct (two_groups (trim cit) MACHINE_REF_THEN_TITLE) as [[a b]|].
  { destruct (splitYear b). apply (f_equal valid) in H. discriminate. }
  destruct (legacy_form (trim cit)) as [p|] eqn:LF.
  { destruct (SectionFacts.legacy_form_shape _ _ LF) as [sec [t [y [_ E]]]]. rewrite E in H.
    apply (f_equal valid) in H. discriminate. }
  destruct (test BARE_MACHINE_REF (trim cit)).
  { apply (f_equal valid) in H. discriminate. }
  destruct (search (trim cit) BARE_SECTION) as [[i st]|].
  { apply (f_equal valid) in H. discriminate. }
  apply (f_equal error) in H. cbn [error invalid] in H. injection H as <-.
  right. eexists. reflexivity.
Qed.

Lemma valid_section cit :
  valid (parseCitation cit) = true ->
  exists sec, section (parseCitation cit) = Some sec /\ truthy sec = true.
Proof.
  intros V.
  destruct (SectionFacts.parseCitation_shape cit) as [[e E]|[sec [t [y [D E]]]]].
  - rewrite E in V. discriminate.
  - rewrite E. destruct (SectionFacts.parseSection_section sec t y Statute D) as [c [t' [S _]]].
    exists (c :: t'). split; [exact S | reflexivity].
Qed.

Definition repeal_warning : jsstr := u "This statute has been repealed".

(** When [validateCitation] finds the document, it reports the document's
    title and status, and [provision_exists] is the answer of the provision
    query for the candidates of the parsed section: a successful parse
    always has a section, so the document-level default ([true] without a
    section) never applies.  The warnings are the repeal warning for a
    repealed document, then the missing-section warning when the provision
    is not found. *)
Theorem validate_found_document cv db cit :
  document_exists (validateCitation cv db cit) = true ->
  exists term d sec,
    lookup_term (parseCitation cit) cit = Some term /\ find_document db term = Some d /\
    section (parseCitation cit) = Some sec /\
    document_title (validateCitation cv db cit) = Some (doc_title d) /\
    status (validateCitation cv db cit) = Some (doc_status d) /\
    provision_exists (validateCitation cv db cit) =
      select_provision db (doc_id d) (provisionRefs (buildProvisionLookupCandidates cv sec))
                                     (sections (buildProvisionLookupCandidates cv sec)) /\
    warnings (validateCitation cv db cit) =
      (if list_eq_dec Z.eq_dec (doc_status d) (u "repealed") then [repeal_warning] else []) ++
      (if provision_exists (validateCitation cv db cit) then []
       else [u "Section ยง " ++ sec ++ u " not found in " ++ doc_title d]).
Proof.
  unfold validateCitation.
  destruct (valid (parseCitation cit)) eqn:V; [|discriminate]. cbn [negb].
  destruct (valid_section cit V) as [sec [S T]].
  destruct (lookup_term (parseCitation cit) cit) as [term|] eqn:L; [|discriminate].
  destruct (truthy term); [|discriminate]. cbn [negb].
  destruct (find_document db term) as [d|] eqn:D; [|discriminate].
  rewrite S, T. intros _. exists term, d, sec.
  cbn [document_title status provision_exists warnings].
  split; [reflexivity|]. split; [exact D|]. do 4 (split; [reflexivity|]).
  unfold repeal_warning. reflexivity.
Qed.

Definition sample_store : Store :=
  {| resolveExistingStatuteId := fun _ => Some (u "gesetz-10001597");
     select_document := fun _ => Some {| doc_id := u "gesetz-10001597";
                                         doc_title := u "Datenschutzgesetz";
                                         doc_status := u "repealed" |};
     select_provision := fun _ _ _ => false |}.

Lemma validate_found_document_witness :
  document_exists (validateCitation (fun _ => []) sample_store (u "§ 3 DSG")) = true /\
  exists term d sec,
    lookup_term (parseCitation (u "§ 3 DSG")) (u "§ 3 DSG") = Some term /\
    find_document sample_store term = Some d /\
    section (parseCitation (u "§ 3 DSG")) = Some sec /\
    document_title (validateCitation (fun _ => []) sample_store (u "§ 3 DSG")) = Some (doc_title d) /\
    status (validateCitation (fun _ => []) sample_store (u "§ 3 DSG")) = Some (doc_status d) /\
    provision_exists (validateCitation (fun _ => []) sample_store (u "§ 3 DSG")) =
      select_provision sample_store (doc_id d)
        (provisionRefs (buildProvisionLookupCandidates (fun _ => []) sec))
        (sections (buildProvisionLookupCandidates (fun _ => []) sec)) /\
    warnings (validateCitation (fun _ => []) sample_store (u "§ 3 DSG")) =
      (if list_eq_dec Z.eq_dec (doc_status d) (u "repealed") then [repeal_warning] else []) ++
      (if provision_exists (validateCitation (fun _ => []) sample_store (u "§ 3 DSG")) then []
       else [u "Section ยง " ++ sec ++ u " not found in " ++ doc_title d]).
Proof.
  split; [vm_compute; reflexivity|].
  apply validate_found_document. vm_compute. reflexivity.
Defined.

(** When [validateCitation] does not find the document (whatever the
    reason), it reports no provision, no title, no status and exactly one
    warning. *)
Theorem validate_missing_document cv db cit :
  document_exists (validateCitation cv db cit) = false ->
  provision_exists (validateCitation cv db cit) = false /\
  document_title (validateCitation cv db cit) = None /\
  status (validateCitation cv db cit) = None /\
  List.length (warnings (validateCitation cv db cit)) = 1.
Proof.
  unfold validateCitation.
  destruct (negb (valid (parseCitation cit))); [intros _; repeat split|].
  destruct (lookup_term (parseCitation cit) cit) as [term|]; [|intros _; repeat split].
  destruct (negb (truthy term)); [intros _; repeat split|].
  destruct (find_document db term) as [d|]; [|intros _; repeat split].
  destruct (section (parseCitation cit)) as [sec|]; [destruct (truthy sec)|];
    cbn [document_exists]; discriminate.
Qed.

Lemma validate_missing_document_witness :
  document_exists (validateCitation (fun _ => []) sample_store (u "§ 3")) = false /\
  provision_exists (validateCitation (fun _ => []) sample_store (u "§ 3")) = false /\
  document_title (validateCitation (fun _ => []) sample_store (u "§ 3")) = None /\
  status (validateCitation (fun _ => []) sample_store (u "§ 3")) = None /\
  List.length (warnings (validateCitation (fun _ => []) sample_store (u "§ 3"))) = 1.
Proof.
  split; [vm_compute; reflexivity|].
  apply validate_missing_document. vm_compute. reflexivity.
Defined.

(** A citation that does not parse is rejected without looking at the
    store: the result is the same for every store, and its only warning is
    the parser's error. *)
Theorem validate_invalid_parse cv db1 db2 cit :
  valid (parseCitation cit) = false ->
  validateCitation cv db1 cit = validateCitation cv db2 cit /\
  exists e, error (parseCitation cit) = Some e /\ warnings (validateCitation cv db1 cit) = [e].
Proof.
  intros V. unfold validateCitation. rewrite V. cbn [negb]. split; [reflexivity|].
  destruct (ParserFacts.parseCitation_cases cit) as [[e E]|[sec [t [y E]]]];
    rewrite E in *; [|discriminate].
  exists e. split; reflexivity.
Qed.

Definition empty_store : Store :=
  {| resolveExistingStatuteId := fun _ => None;
     select_document := fun _ => None;
     select_provision := fun _ _ _ => false |}.

Lemma validate_invalid_parse_witness :
  valid (parseCitation (u "DSG")) = false /\
  validateCitation (fun _ => []) sample_store (u "DSG") =
    validateCitation (fun _ => []) empty_store (u "DSG") /\
  exists e, error (parseCitation (u "DSG")) = Some e /\
    warnings (validateCitation (fun _ => []) sample_store (u "DSG")) = [e].
Proof.
  split; [vm_compute; reflexivity|].
  apply validate_invalid_parse. vm_compute. reflexivity.
Defined.

(** The repeal warning is reported exactly when the reported status is
    [repealed]. *)
Theorem validate_repeal_warning cv db cit :
  In repeal_warning (warnings (validateCitation cv db cit)) <->
  status (validateCitation cv db cit) = Some (u "repealed").
Proof.
  unfold validateCitation, repeal_warning.
  destruct (valid (parseCitation cit)) eqn:V; cbn [negb].
  - destruct (lookup_term (parseCitation cit) cit) as [term|].
    2:{ cbn [warnings status In]. split; [intros [H|[]]; vm_compute in H; discriminate | discriminate]. }
    destruct (truthy term); cbn [negb].
    2:{ cbn [warnings status In]. split; [intros [H|[]]; vm_compute in H; discriminate | discriminate]. }
    destruct (find_document db term) as [d|].
    2:{ cbn [warnings status In]. split; [intros [H|[]] | discriminate].
        vm_compute in H. discriminate. }
    assert (NS : forall x, u "Section ยง " ++ x <> u "This statute has been repealed")
      by (intros x; vm_compute; discriminate).
    destruct (section (parseCitation cit)) as [sec|]; [destruct (truthy sec)|];
      cbn [warnings status];
      (destruct (list_eq_dec Z.eq_dec (doc_status d) (u "repealed")) as [R|R];
       [rewrite R; split; [reflexivity | intros _; left; reflexivity] |]);
      (split; [|intros H; inversion H; contradiction]);
      cbn [app]; try (destruct (select_provision _ _ _ _)); cbn [app In];
      try (intros [H|[]]; apply (NS _ (eq_sym (eq_sym H))); fail);
      try (intros [H|[]]; exact (False_ind _ (NS _ H)));
      intros [].
  - destruct (ParserFacts.parseCitation_cases cit) as [[e E]|[sec [t [y E]]]];
      rewrite E in *; [|discriminate].
    cbn [warnings status error invalid In].
    split; [|discriminate]. intros [H|[]].
    destruct (parseCitation_error_text cit e E) as [->|[t ->]]; vm_compute in H; discriminate.
Qed.

End ValidatorProps.

(* ------------------------------------------------------------------ *)
(** ** Properties of the content cleaner *)

Module CleanerProps.

Import Cleaner RegexFacts.

Lemma split_on_forall (P : Z -> Prop) c s :
  Forall P s -> forall l, In l (split_on c s) -> Forall P l.
Proof.
  induction s as [|x s IH]; intros F l I; simpl in I.
  - destruct I as [E|[]]. subst. constructor.
  - inversion F as [|? ? Px Fs]; subst.
    destruct (x =? c)%Z.
    + destruct I as [E|I]; [subst; constructor | exact (IH Fs l I)].
    + destruct (split_on c s) as [|w ws] eqn:S.
      * destruct I as [E|[]]. subst. constructor; [exact Px | constructor].
      * destruct I as [E|I].
        -- subst l. constructor; [exact Px|]. apply IH; [exact Fs | left; reflexivity].
        -- apply IH; [exact Fs | right; exact I].
Qed.

(** The cleaned text is trimmed, and it is empty or each of its lines has a
    character that is not white space; in particular it never contains two
    consecutive line feeds (so the final [/\n{3,}/] collapse never fires). *)
Theorem clean_no_blank_lines x :
  trim (cleanProvisionContent x) = cleanProvisionContent x /\
  (cleanProvisionContent x = [] \/
   (Forall (fun l => truthy (trim l) = true) (split_on 10 (cleanProvisionContent x)) /\
    forall p, nth_error (cleanProvisionContent x) p = Some 10%Z ->
              nth_error (cleanProvisionContent x) (S p) <> Some 10%Z)).
Proof.
  split; [unfold cleanProvisionContent; apply CleanerFacts.trim_idem|].
  destruct (CleanerFacts.clean_shape x) as [E|E]; [left; exact E | right].
  split; [apply CleanerFacts.line_scan_all_nonblank; exact E|].
  intros p N1 N2. apply (CleanerFacts.line_scan_no_double_lf (cleanProvisionContent x) false p); [congruence | exact N1 | exact N2].
Qed.

(** Content that is empty or white space only cleans to the empty string. *)
Theorem clean_blank x :
  Forall (fun c => is_js_space c = true) x -> cleanProvisionContent x = [].
Proof.
  intros F. unfold cleanProvisionContent.
  assert (K : forall L, (forall l, In l L -> Forall (fun c => is_js_space c = true) l) ->
                        filter keep_line L = []).
  { induction L as [|l L IH]; intros H; [reflexivity|]. cbn [filter].
    assert (Kl : keep_line l = false).
    { unfold keep_line. rewrite (ParserFacts.trim_all_space l (H l (or_introl eq_refl))).
      reflexivity. }
    rewrite Kl. apply IH. intros l' I. apply H. right. exact I. }
  assert (CL : cleaned_lines x = []).
  { unfold cleaned_lines. rewrite (K _ (split_on_forall _ 10 x F)). reflexivity. }
  rewrite CL. vm_compute. reflexivity.
Qed.

Lemma clean_blank_witness :
  Forall (fun c => is_js_space c = true) (u " 
 	 
") /\ cleanProvisionContent (u " 
 	 
") = [].
Proof.
  split; [repeat constructor|]. apply clean_blank. repeat constructor.
Defined.

Lemma comma_group s st st' :
  Rel s (RSeq kw_first (RSeq (star kw_rest) (RSeq (chr 44) (star ws)))) st st' ->
  exists i, fst st <= i /\ S i <= fst st' /\ nth_error s i = Some 44%Z.
Proof.
  intros R.
  apply Rel_seq_inv in R as [st1 [R1 R]]. apply Rel_mono in R1.
  apply Rel_seq_inv in R as [st2 [R2 R]]. apply Rel_mono in R2.
  apply Rel_seq_inv in R as [st3 [R3 R4]]. apply Rel_mono in R4.
  apply Rel_char_inv in R3 as [c [N [P E]]]. subst st3. apply Z.eqb_eq in P. subst c.
  exists (fst st2). cbn [fst] in R4. split; [lia | split; [lia | exact N]].
Qed.

(** [isKeywordLine] only accepts lines with at least two commas: the
    pattern requires [{2,}] comma-terminated terms. *)
Theorem isKeywordLine_two_commas line :
  isKeywordLine line = true ->
  exists i j, i < j /\ nth_error line i = Some 44%Z /\ nth_error line j = Some 44%Z.
Proof.
  unfold isKeywordLine. destruct (test KEYWORD_LINE_PATTERN line) eqn:T; [|discriminate].
  intros _. apply test_sound in T as [p [st R]].
  unfold KEYWORD_LINE_PATTERN in R. cbn [seq_of] in R.
  apply Rel_seq_inv in R as [st1 [_ R]].
  apply Rel_seq_inv in R as [st2 [R _]].
  unfold rep_min in R. cbn [rep] in R.
  apply Rel_seq_inv in R as [st3 [R _]].
  apply Rel_seq_inv in R as [st4 [G1 R]].
  apply Rel_seq_inv in R as [st5 [G2 _]].
  destruct (comma_group _ _ _ G1) as [i [_ [Hi Ni]]].
  destruct (comma_group _ _ _ G2) as [j [Hj [_ Nj]]].
  exists i, j. split; [lia | split; assumption].
Qed.

Lemma isKeywordLine_two_commas_witness :
  isKeywordLine (u "Datenschutz, Auskunft, Recht") = true /\
  exists i j, i < j /\ nth_error (u "Datenschutz, Auskunft, Recht") i = Some 44%Z /\
              nth_error (u "Datenschutz, Auskunft, Recht") j = Some 44%Z.
Proof.
  split; [vm_compute; reflexivity|].
  apply isKeywordLine_two_commas. vm_compute. reflexivity.
Defined.

Lemma subseq_nil_l {A} (xs : list A) : subseq [] xs.
Proof. induction xs; constructor; assumption. Qed.

Lemma subseq_refl {A} (xs : list A) : subseq xs xs.
Proof. induction xs; constructor; assumption. Qed.

Lemma subseq_app {A} (a b c d : list A) : subseq a b -> subseq c d -> subseq (a ++ c) (b ++ d).
Proof. induction 1 as [|x xs ys _ IH|x xs ys _ IH]; intros Hcd; simpl; try constructor; auto. Qed.

Lemma subseq_trans {A} (x y z : list A) : subseq x y -> subseq y z -> subseq x z.
Proof.
  intros H1 H2. revert x H1. induction H2 as [|w ys zs Hs IH|w ys zs Hs IH]; intros x H1.
  - exact H1.
  - inversion H1; subst; constructor; auto.
  - constructor. auto.
Qed.

Lemma subseq_prefix {A} (a b : list A) : subseq a (a ++ b).
Proof. rewrite <- (app_nil_r a) at 1. apply subseq_app; [apply subseq_refl | apply subseq_nil_l]. Qed.

Lemma subseq_suffix {A} (a b : list A) : subseq b (a ++ b).
Proof. apply (subseq_app [] a b b); [apply subseq_nil_l | apply subseq_refl]. Qed.

Lemma subseq_nil_r {A} (xs : list A) : subseq xs [] -> xs = [].
Proof. intros H. inversion H. reflexivity. Qed.

Lemma trim_subseq x : subseq (trim x) x.
Proof.
  unfold trim.
  destruct (CleanerFacts.trim_start_decomp x) as [sp [E _]].
  destruct (CleanerFacts.trim_end_decomp (trim_start x)) as [sp' [E' _]].
  apply (subseq_trans _ (trim_start x)).
  - rewrite E' at 2. apply subseq_prefix.
  - rewrite E at 2. apply subseq_suffix.
Qed.

Lemma filter_subseq {A} (f : A -> bool) l : subseq (filter f l) l.
Proof. induction l as [|x l IH]; simpl; [constructor|]. destruct (f x); constructor; exact IH. Qed.

Lemma pop_keywords_rev_suffix rl : exists pre, rl = pre ++ pop_keywords_rev rl.
Proof.
  induction rl as [|x rl IH]; [exists []; reflexivity|]. simpl.
  destruct (isKeywordLine (trim x)).
  - destruct IH as [pre E]. exists (x :: pre). simpl. congruence.
  - exists []. reflexivity.
Qed.

Lemma pop_trailing_keywords_subseq L : subseq (pop_trailing_keywords L) L.
Proof.
  unfold pop_trailing_keywords. destruct (pop_keywords_rev_suffix (rev L)) as [pre E].
  set (P := pop_keywords_rev (rev L)) in *.
  apply (f_equal (@rev _)) in E. rewrite rev_involutive, rev_app_distr in E.
  rewrite E. apply subseq_prefix.
Qed.

Lemma join_cons (sep x : jsstr) L :
  join sep (x :: L) = match L with [] => x | _ => x ++ sep ++ join sep L end.
Proof. destruct L; reflexivity. Qed.

Lemma join_subseq L' L : subseq L' L -> subseq (join [10%Z] L') (join [10%Z] L).
Proof.
  induction 1 as [|x L' L H IH|x L' L H IH].
  - constructor.
  - rewrite !join_cons. destruct L' as [|y L'].
    + destruct L; [apply subseq_refl | apply subseq_prefix].
    + destruct L as [|z L]; [apply subseq_nil_r in H; discriminate|].
      apply subseq_app; [apply subseq_refl|]. apply subseq_app; [apply subseq_refl | exact IH].
  - rewrite join_cons. destruct L as [|z L].
    + apply subseq_nil_r in H. subst. apply subseq_nil_l.
    + apply (subseq_trans _ _ _ IH). rewrite app_assoc. apply subseq_suffix.
Qed.

(** [cleanProvisionContent] only deletes characters: its output is a
    subsequence of its input, nothing is inserted, replaced or reordered. *)
Theorem clean_deletes_only x : subseq (cleanProvisionContent x) x.
Proof.
  destruct (cleaned_lines x) as [|l L] eqn:CL.
  { assert (E : cleanProvisionContent x = [])
      by (unfold cleanProvisionContent; rewrite CL; vm_compute; reflexivity).
    rewrite E. apply subseq_nil_l. }
  assert (J : subseq (join [10%Z] (cleaned_lines x)) x).
  { rewrite <- (CleanerFacts.join_split x) at 2. apply join_subseq.
    unfold cleaned_lines. apply (subseq_trans _ (filter keep_line (split_on 10 x))).
    - apply pop_trailing_keywords_subseq.
    - apply filter_subseq. }
  unfold cleanProvisionContent. rewrite CL in *.
  assert (G0 : line_scan false (join [10%Z] (l :: L)) = Some true).
  { apply CleanerFacts.line_scan_join; [discriminate|]. intros l' I. rewrite <- CL in I.
    apply (CleanerFacts.cleaned_lines_good x l' I). }
  set (z0 := join [10%Z] (l :: L)) in *.
  assert (G1 : line_scan false (trim z0) <> None).
  { unfold trim. destruct (CleanerFacts.line_scan_trim_end (trim_start z0)) as [E|E].
    - rewrite CleanerFacts.line_scan_trim_start; congruence.
    - rewrite E. discriminate.
    - rewrite E. discriminate. }
  assert (G2 : line_scan false (replace_first TRAILING_SECTION_REF (trim z0) []) <> None).
  { destruct (CleanerFacts.trailing_cut (trim z0)) as [E|[i E]]; rewrite E; [exact G1|].
    apply CleanerFacts.line_scan_prefix. exact G1. }
  rewrite (CleanerFacts.collapse_id _ G2).
  apply (subseq_trans _ _ _ (trim_subseq _)).
  apply (subseq_trans _ (trim z0)); [|exact (subseq_trans _ _ _ (trim_subseq z0) J)].
  destruct (CleanerFacts.trailing_cut (trim z0)) as [E|[i E]]; rewrite E;
    [apply subseq_refl|].
  rewrite <- (firstn_skipn i (trim z0)) at 2. apply subseq_prefix.
Qed.

End CleanerProps.
